(** * Command-line tokenizer and argument extraction of PowerEditor/src/winmain.cpp

    A shallow embedding of [parseCommandLine], [convertParamsToNotepadStyle],
    [isInList], [getParamVal], [getParamValFromString], [getNumberFromParam],
    [getGhostTypingSpeedFromParam] and [stripIgnoredParams], followed by the
    properties the design document states about them.

    Conventions of the embedding.
    - [TCHAR] is [wchar_t]: one UTF-16 code unit, kept as its code in [N].
    - A [const TCHAR*] that points to a string is the list of the cells it
      points to; the C string it denotes is what stands before the first
      zero cell ([c_str]).  A pointer into the scratch buffer of the tokenizer
      is an offset into the list that models the buffer.
    - [lstrcmp (a, b) == 0] is read as equality of the two C strings.
    - [std::vector<std::wstring>] is a list of lists; [erase] is stdpp's
      [delete], element access is stdpp's lookup.
    - Code that can throw ([std::vector::at], [std::stoi]) returns an
      [outcome]. *)

From Stdlib Require Import NArith ZArith List Strings.String Strings.Ascii Lia.
From stdpp Require Import base tactics option list sorting.
Import ListNotations.

Local Open Scope nat_scope.

(** ** Characters and strings *)

Abbreviation TCHAR := N (only parsing).
Abbreviation wstring := (list TCHAR) (only parsing).
Abbreviation ParamVector := (list wstring) (only parsing).

(** [TEXT("...")]: a wide string literal, one cell per character. *)
Fixpoint TEXT (s : string) : list TCHAR :=
  match s with
  | EmptyString => []
  | String a s' => N_of_ascii a :: TEXT s'
  end.

(** The characters the code names: the terminator, tab, space, the quote,
    the dash and the equals sign. *)
Abbreviation ch_nul := 0%N (only parsing).
Abbreviation ch_tab := 9%N (only parsing).
Abbreviation ch_space := 32%N (only parsing).
Abbreviation ch_quote := 34%N (only parsing).
Abbreviation ch_dash := 45%N (only parsing).
Abbreviation ch_equals := 61%N (only parsing).

(** The C string held by a run of cells: everything before the first zero. *)
Fixpoint c_str (w : list TCHAR) : list TCHAR :=
  match w with
  | [] => []
  | c :: w' => if (c =? ch_nul)%N then [] else c :: c_str w'
  end.

Definition lstrlen (p : list TCHAR) : nat := length (c_str p).

(** [lstrcpy] into a fresh array of [lstrlen + 1] cells. *)
Definition lstrcpy (p : list TCHAR) : list TCHAR := c_str p ++ [ch_nul].

(** [lstrcmp (a, b) == 0]. *)
Definition lstrcmp_is0 (a b : list TCHAR) : bool :=
  bool_decide (c_str a = c_str b).

(** [buf[i]]; every access of the code is inside the array. *)
Definition peek (buf : list TCHAR) (i : nat) : TCHAR := default ch_nul (buf !! i).

(** The C string at pointer [buf + p]. *)
Definition str_at (buf : list TCHAR) (p : nat) : list TCHAR := c_str (drop p buf).

(** ** parseCommandLine *)

Record ParseState := mkParseState {
  cmdLine : list TCHAR;            (* the scratch copy, zero terminated *)
  isBetweenFileNameQuotes : bool;
  isStringInArg : bool;
  isInWhiteSpace : bool;
  zArg : Z;                        (* int; never near its bounds *)
  shouldBeTerminated : bool;
  args : list nat                  (* std::vector<TCHAR*>, as offsets *)
}.

Definition initParseState (buf : list TCHAR) : ParseState :=
  mkParseState buf false false true 0%Z false [].

(** The case of the quote character. *)
Definition onQuote (i : nat) (s : ParseState) : ParseState :=
  if negb (isStringInArg s) && negb (isBetweenFileNameQuotes s)
     && (0 <? i) && (peek (cmdLine s) (i - 1) =? ch_equals)%N
  then
    mkParseState (cmdLine s) (isBetweenFileNameQuotes s) true false
                 (zArg s) (shouldBeTerminated s) (args s)
  else if isStringInArg s then
    mkParseState (cmdLine s) (isBetweenFileNameQuotes s) false false
                 (zArg s) (shouldBeTerminated s) (args s)
  else if negb (isBetweenFileNameQuotes s) then
    mkParseState (<[i := ch_nul]> (cmdLine s)) true (isStringInArg s) false
                 (if (zArg s =? 1)%Z then (zArg s + 1)%Z else zArg s)
                 (shouldBeTerminated s) (args s ++ [i + 1])
  else
    mkParseState (<[i := ch_nul]> (cmdLine s)) false (isStringInArg s) false
                 (zArg s) (shouldBeTerminated s) (args s).

(** The cases of the tab and of the space. *)
Definition onWhiteSpace (i : nat) (s : ParseState) : ParseState :=
  if negb (isBetweenFileNameQuotes s) && negb (isStringInArg s) then
    let buf := <[i := ch_nul]> (cmdLine s) in
    let argsLen := length (args s) in
    let lastArg := str_at buf (default 0 (args s !! (argsLen - 1))) in
    mkParseState buf (isBetweenFileNameQuotes s) (isStringInArg s) true
                 (if (0 <? argsLen) && lstrcmp_is0 lastArg (TEXT "-z")
                  then (zArg s + 1)%Z else zArg s)
                 (shouldBeTerminated s) (args s)
  else
    mkParseState (cmdLine s) (isBetweenFileNameQuotes s) (isStringInArg s) true
                 (zArg s) (shouldBeTerminated s) (args s).

(** The default case. *)
Definition onOther (i : nat) (s : ParseState) : ParseState :=
  if negb (isBetweenFileNameQuotes s) && negb (isStringInArg s)
     && isInWhiteSpace s
  then
    mkParseState (cmdLine s) (isBetweenFileNameQuotes s) (isStringInArg s) false
                 (zArg s)
                 (if (zArg s =? 2)%Z then true else shouldBeTerminated s)
                 (args s ++ [i])
  else s.

(** The body of the [for] loop: the [switch] on [cmdLinePtr[i]]. *)
Definition parseStep (i : nat) (s : ParseState) : ParseState :=
  let c := peek (cmdLine s) i in
  if (c =? ch_quote)%N then onQuote i s
  else if (c =? ch_tab)%N || (c =? ch_space)%N then onWhiteSpace i s
  else onOther i s.

(** [for (i; i < commandLength && !shouldBeTerminated; ++i)], with [n] the
    number of indices left, [commandLength - i]. *)
Fixpoint parseLoop (n i : nat) (s : ParseState) : ParseState :=
  match n with
  | 0 => s
  | S n' =>
      if shouldBeTerminated s then s
      else parseLoop n' (S i) (parseStep i s)
  end.

(** The state in which the loop of [parseCommandLine] ends. *)
Definition parseFinal (commandLine : list TCHAR) : ParseState :=
  let buf := lstrcpy commandLine in
  parseLoop (lstrlen buf) 0 (initParseState buf).

(** [paramVector.assign(args.begin(), args.end())]: every pointer is read as
    a C string of the scratch buffer. *)
Definition argsToParams (s : ParseState) : ParamVector :=
  map (str_at (cmdLine s)) (args s).

(** [commandLine] is [None] for the null pointer, which leaves
    [paramVector] as it was. *)
Definition parseCommandLine (commandLine : option (list TCHAR))
    (paramVector : ParamVector) : ParamVector :=
  match commandLine with
  | None => paramVector
  | Some cl => argsToParams (parseFinal cl)
  end.

(** The state after the first [k] iterations that the loop runs. *)
Definition parseStateAt (commandLine : list TCHAR) (k : nat) : ParseState :=
  parseLoop k 0 (initParseState (lstrcpy commandLine)).

(** ** Code that can throw *)

Inductive exn := invalid_argument | out_of_range.

Inductive outcome (A : Type) : Type :=
  | Ret (a : A)
  | Throw (e : exn).
Arguments Ret {A} a.
Arguments Throw {A} e.

Definition bind {A B : Type} (m : outcome A) (k : A -> outcome B) : outcome B :=
  match m with
  | Ret a => k a
  | Throw e => Throw e
  end.

Notation "x <- m ;;; k" := (bind m (fun x => k))
  (at level 100, m at next level, right associativity).

(** [params.at(i)]: throws [std::out_of_range] outside the vector. *)
Definition at_ (params : ParamVector) (i : nat) : outcome wstring :=
  match params !! i with
  | Some tok => Ret tok
  | None => Throw out_of_range
  end.

(** ** convertParamsToNotepadStyle *)

(** The iterator is the index [it]; [n] is the distance to [params.end()]. *)
Fixpoint convertLoop (n it : nat) (params : ParamVector) : ParamVector :=
  match n with
  | 0 => params
  | S n' =>
      match params !! it with
      | None => params
      | Some tok =>
          convertLoop n' (S it)
            (if lstrcmp_is0 tok (TEXT "/p") || lstrcmp_is0 tok (TEXT "/P")
             then <[it := TEXT "-quickPrint"]> params
             else params)
      end
  end.

Definition convertParamsToNotepadStyle (params : ParamVector) : ParamVector :=
  convertLoop (length params) 0 params.

(** ** isInList *)

Fixpoint isInListLoop (n it : nat) (token2Find : list TCHAR)
    (params : ParamVector) (eraseArg : bool) : bool * ParamVector :=
  match n with
  | 0 => (false, params)
  | S n' =>
      match params !! it with
      | None => (false, params)
      | Some tok =>
          if lstrcmp_is0 token2Find tok
          then (true, if eraseArg then delete it params else params)
          else isInListLoop n' (S it) token2Find params eraseArg
      end
  end.

Definition isInList (token2Find : list TCHAR) (params : ParamVector)
    (eraseArg : bool) : bool * ParamVector :=
  isInListLoop (length params) 0 token2Find params eraseArg.

(** ** getParamVal *)

(** The test of [getParamVal] on [token = params.at(i).c_str()]. *)
Definition isFlagToken (c : TCHAR) (tok : wstring) : bool :=
  let token := c_str tok in
  (peek token 0 =? ch_dash)%N && (2 <=? lstrlen token)
  && (peek token 1 =? c)%N.

(** The result is the returned [bool], [value] and [params]. *)
Fixpoint getParamValLoop (n i : nat) (c : TCHAR) (params : ParamVector)
    : outcome (bool * wstring * ParamVector) :=
  match n with
  | 0 => Ret (false, [], params)
  | S n' =>
      tok <- at_ params i ;;;
      if isFlagToken c tok
      then Ret (true, drop 2 (c_str tok), delete i params)
      else getParamValLoop n' (S i) c params
  end.

Definition getParamVal (c : TCHAR) (params : ParamVector)
    : outcome (bool * wstring * ParamVector) :=
  getParamValLoop (length params) 0 c params.

(** ** getParamValFromString *)

Fixpoint starts_with (str s : list TCHAR) : bool :=
  match str, s with
  | [], _ => true
  | c :: str', d :: s' => (c =? d)%N && starts_with str' s'
  | _ :: _, [] => false
  end.

(** [std::wstring::find]: the first position at which [str] occurs. *)
Fixpoint wstring_find (s str : list TCHAR) : option nat :=
  if starts_with str s then Some 0
  else match s with
       | [] => None
       | _ :: s' => S <$> wstring_find s' str
       end.

Definition hasKeyPrefix (str : list TCHAR) (tok : wstring) : bool :=
  bool_decide (wstring_find (c_str tok) (c_str str) = Some 0).

Fixpoint getParamValFromStringLoop (n i : nat) (str : list TCHAR)
    (params : ParamVector) : outcome (bool * wstring * ParamVector) :=
  match n with
  | 0 => Ret (false, [], params)
  | S n' =>
      tok <- at_ params i ;;;
      if hasKeyPrefix str tok
      then Ret (true, drop (lstrlen str) (c_str tok), delete i params)
      else getParamValFromStringLoop n' (S i) str params
  end.

Definition getParamValFromString (str : list TCHAR) (params : ParamVector)
    : outcome (bool * wstring * ParamVector) :=
  getParamValFromStringLoop (length params) 0 str params.

(** ** getNumberFromParam *)

Section GetNumber.

(** [_ttoi64] of the C runtime followed by the cast to [intptr_t]; it is
    left open, the properties below hold whatever it computes. *)
Variable _ttoi64 : list TCHAR -> Z.

(** The result is the returned number, [isParamePresent] and [params]. *)
Definition getNumberFromParam (paramName : TCHAR) (params : ParamVector)
    : outcome (Z * bool * ParamVector) :=
  r <- getParamVal paramName params ;;;
  let '(found, numStr, params') := r in
  if negb found then Ret ((-1)%Z, false, params')
  else Ret (_ttoi64 numStr, true, params').

End GetNumber.

(** ** getLangTypeFromParam and getLocalizationPathFromParam *)

Section LangAndLocalization.

(** [LangType] with its value [L_EXTERNAL], the lookups of [NppParameters]
    and the two string helpers are declared outside this file; they are left
    open. *)
Variable LangType : Type.
Variable L_EXTERNAL : LangType.
Variable getLangIDFromStr : list TCHAR -> LangType.
Variable getLocPathFromStr : list TCHAR -> wstring.
Variable stringToLower : wstring -> wstring.
Variable stringReplace : wstring -> list TCHAR -> list TCHAR -> wstring.

(** The result is the returned [LangType] and [params]. *)
Definition getLangTypeFromParam (params : ParamVector)
    : outcome (LangType * ParamVector) :=
  r <- getParamVal 108%N params ;;;
  let '(found, langStr, params') := r in
  if negb found then Ret (L_EXTERNAL, params')
  else Ret (getLangIDFromStr (c_str langStr), params').

(** The result is the returned path and [params]. *)
Definition getLocalizationPathFromParam (params : ParamVector)
    : outcome (wstring * ParamVector) :=
  r <- getParamVal 76%N params ;;;
  let '(found, locStr, params') := r in
  if negb found then Ret ([], params')
  else
    let locStr' := stringToLower (stringReplace locStr (TEXT "_") (TEXT "-")) in
    Ret (getLocPathFromStr (c_str locStr'), params').

End LangAndLocalization.

(** ** getEasterEggNameFromParam *)

(** [a - b] in [size_t], 64 bits wide. *)
Definition size_t_sub (a b : N) : N :=
  Z.to_N ((Z.of_N a - Z.of_N b) mod 2 ^ 64).

(** [std::wstring::substr (pos, count)]: [std::out_of_range] when [pos] is
    past the end, else at most [count] characters from [pos] on. *)
Definition substr (s : wstring) (pos count : N) : outcome wstring :=
  let size := N.of_nat (length s) in
  if (pos <=? size)%N
  then Ret (take (N.to_nat (N.min count (size - pos))) (drop (N.to_nat pos) s))
  else Throw out_of_range.

Section EasterEgg.

(** [relativeFilePathToFullFilePath] is declared outside this file. *)
Variable relativeFilePathToFullFilePath : list TCHAR -> wstring.

(** The three look-ups in their order; [None] is the early [return] of the
    empty string, otherwise the value found, the new [type] and [params]. *)
Definition findEasterEggName (params : ParamVector)
    : outcome (option (wstring * N * ParamVector)) :=
  r <- getParamValFromString (TEXT "-qn=") params ;;;
  let '(found, name, params1) := r in
  if negb found then
    r <- getParamValFromString (TEXT "-qt=") params1 ;;;
    let '(found, name, params2) := r in
    if negb found then
      r <- getParamValFromString (TEXT "-qf=") params2 ;;;
      let '(found, name, params3) := r in
      if negb found then Ret None
      else Ret (Some (name, 2%N, params3))
    else Ret (Some (name, 1%N, params2))
  else Ret (Some (name, 0%N, params1)).

(** The second test is only evaluated after the first, as with [&&]. *)
Definition isQuoteDelimited (name : wstring) : bool :=
  if (peek (c_str name) 0 =? ch_quote)%N
  then (peek (c_str name)
          (N.to_nat (size_t_sub (N.of_nat (length name)) 1)) =? ch_quote)%N
  else false.

(** The [if] that strips the delimiting quotes. *)
Definition stripDelimitingQuotes (name : wstring) : outcome wstring :=
  if isQuoteDelimited name
  then substr name 1 (size_t_sub (N.of_nat (length name)) 2)
  else Ret name.

(** The result is the returned string, [type] and [params]. *)
Definition getEasterEggNameFromParam (params : ParamVector) (type : N)
    : outcome (wstring * N * ParamVector) :=
  r <- findEasterEggName params ;;;
  match r with
  | None => Ret ([], type, params)
  | Some (name, type', params') =>
      name1 <- stripDelimitingQuotes name ;;;
      let name2 := if (type' =? 2)%N
                   then relativeFilePathToFullFilePath (c_str name1)
                   else name1 in
      Ret (name2, type', params')
  end.

End EasterEgg.

(** ** getGhostTypingSpeedFromParam *)

(** [iswspace] in the C locale. *)
Definition iswspace (c : TCHAR) : bool :=
  ((9 <=? c) && (c <=? 13) || (c =? 32))%N.

Fixpoint skip_space (w : list TCHAR) : list TCHAR :=
  match w with
  | c :: w' => if iswspace c then skip_space w' else w
  | [] => []
  end.

Definition digit_of (c : TCHAR) : option Z :=
  if ((48 <=? c) && (c <=? 57))%N then Some (Z.of_N c - 48)%Z else None.

Fixpoint digits_value (acc : Z) (w : list TCHAR) : Z :=
  match w with
  | c :: w' =>
      match digit_of c with
      | Some d => digits_value (10 * acc + d)%Z w'
      | None => acc
      end
  | [] => acc
  end.

(** [wcstol (p, &end, 10)] as a number without bound; [None] when no
    conversion can be performed. *)
Definition wcstol10 (p : list TCHAR) : option Z :=
  let w := skip_space (c_str p) in
  let '(negative, w') :=
    match w with
    | c :: r => if (c =? 45)%N then (true, r)
                else if (c =? 43)%N then (false, r) else (false, w)
    | [] => (false, w)
    end in
  match w' with
  | c :: _ =>
      match digit_of c with
      | Some _ => Some (if negative : bool then (- digits_value 0 w')%Z
                        else digits_value 0 w')
      | None => None
      end
  | [] => None
  end.

(** [std::stoi (str, 0)]: base 10; [std::invalid_argument] when nothing
    converts, [std::out_of_range] outside [int]. *)
Definition stoi (str : wstring) : outcome Z :=
  match wcstol10 str with
  | None => Throw invalid_argument
  | Some v =>
      if ((v <? - 2 ^ 31) || (2 ^ 31 - 1 <? v))%Z then Throw out_of_range
      else Ret v
  end.

(** The result is the returned [int] and [params]. *)
Definition getGhostTypingSpeedFromParam (params : ParamVector)
    : outcome (Z * ParamVector) :=
  r <- getParamValFromString (TEXT "-qSpeed") params ;;;
  let '(found, speedStr, params') := r in
  if negb found then Ret ((-1)%Z, params')
  else
    speed <- stoi speedStr ;;;
    if ((speed <=? 0) || (3 <? speed))%Z then Ret ((-1)%Z, params')
    else Ret (speed, params').

(** ** stripIgnoredParams *)

(** The iterator is the index [it]; the loop has no counter of its own, so
    the embedding counts its iterations down from [fuel] and answers [None]
    when they are used up. *)
Fixpoint stripLoop (fuel it : nat) (params : ParamVector)
    : option ParamVector :=
  match params !! it with
  | None => Some params
  | Some tok =>
      match fuel with
      | 0 => None
      | S fuel' =>
          if lstrcmp_is0 tok (TEXT "-z") then
            let nextIt := S it in
            let params1 :=
              match params !! nextIt with
              | Some _ => delete nextIt params
              | None => params
              end in
            stripLoop fuel' it (delete it params1)
          else stripLoop fuel' (S it) params
      end
  end.

Definition stripIgnoredParams (params : ParamVector) : option ParamVector :=
  stripLoop (length params) 0 params.

(** ** Notions of the design document and of the statements below *)

Definition is_ws (c : TCHAR) : bool := ((c =? ch_tab) || (c =? ch_space))%N.

(** The pieces of a string between consecutive separator characters. *)
Fixpoint fields (l : list TCHAR) : list wstring :=
  match l with
  | [] => [[]]
  | c :: l' =>
      if is_ws c then [] :: fields l'
      else match fields l' with
           | f :: fs => (c :: f) :: fs
           | [] => [[c]]
           end
  end.

(** Splitting on maximal runs of space and tab: the pieces that are not
    empty. *)
Definition split_on_whitespace_runs (l : list TCHAR) : list wstring :=
  filter (fun f => f <> []) (fields l).

(** A character of a command line that holds no quote. *)
Definition plain_char (c : TCHAR) : Prop := c <> ch_nul /\ c <> ch_quote.

(** A token equals a literal when [lstrcmp] finds no difference; for a token
    with no zero cell this is equality of the two strings
    ([tokenIs_nul_free]). *)
Definition tokenIs (lit : string) (tok : wstring) : bool :=
  lstrcmp_is0 tok (TEXT lit).

(** Stripping as the design document words it. *)
Fixpoint strip_spec (params : ParamVector) : ParamVector :=
  match params with
  | [] => []
  | tok :: rest =>
      if tokenIs "-z" tok
      then match rest with
           | [] => []
           | _ :: rest' => strip_spec rest'
           end
      else tok :: strip_spec rest
  end.

(** The Normalizer as a rewrite of single tokens. *)
Definition normalize_token (tok : wstring) : wstring :=
  if tokenIs "/p" tok || tokenIs "/P" tok then TEXT "-quickPrint" else tok.

(** [tok] is the earliest token of [params] that [P] accepts, with [pre]
    before it and [post] after it. *)
Definition earliest_match (P : wstring -> bool) (params pre : ParamVector)
    (tok : wstring) (post : ParamVector) : Prop :=
  params = pre ++ tok :: post /\ Forall (fun t => P t = false) pre /\ P tok = true.

Definition no_match (P : wstring -> bool) (params : ParamVector) : Prop :=
  Forall (fun t => P t = false) params.

Fixpoint split_first (P : wstring -> bool) (l : ParamVector)
    : option (ParamVector * wstring * ParamVector) :=
  match l with
  | [] => None
  | t :: l' =>
      if P t then Some ([], t, l')
      else match split_first P l' with
           | Some (a, x, b) => Some (t :: a, x, b)
           | None => None
           end
  end.

(** What an extraction answers: [found] on the earliest token that [P]
    accepts and on the vector without it, or [absent] when [P] accepts none. *)
Definition takes_earliest {R : Type} (P : wstring -> bool) (params : ParamVector)
    (found : wstring -> ParamVector -> R) (absent : R) (r : R) : Prop :=
  (exists pre tok post,
      earliest_match P params pre tok post /\ r = found tok (pre ++ post))
  \/ (no_match P params /\ r = absent).

Definition nul_free (w : list TCHAR) : Prop := Forall (fun c => c <> ch_nul) w.

(** No quote character stands directly after an equals sign. *)
Definition no_quote_after_equals (raw : list TCHAR) : Prop :=
  forall i, raw !! i = Some ch_equals -> raw !! S i <> Some ch_quote.

(** The character at position [i] is a quote that the scan meets with no
    quoting context active, not directly after an equals sign and before any
    verbatim capture: it opens a quoted filename. *)
Definition opens_filename_quote (raw : list TCHAR) (i : nat) : Prop :=
  c_str raw !! i = Some ch_quote
  /\ shouldBeTerminated (parseStateAt raw i) = false
  /\ isStringInArg (parseStateAt raw i) = false
  /\ isBetweenFileNameQuotes (parseStateAt raw i) = false
  /\ (i = 0 \/ c_str raw !! (i - 1) <> Some ch_equals).

(** The earliest token that [P] accepts, and the vector without it. *)
Definition find_first (P : wstring -> bool) (l : ParamVector) : option wstring :=
  match split_first P l with
  | Some (_, x, _) => Some x
  | None => None
  end.

Definition remove_first (P : wstring -> bool) (l : ParamVector) : ParamVector :=
  match split_first P l with
  | Some (a, _, b) => a ++ b
  | None => l
  end.

(** The length of a [std::wstring] is a [size_t]. *)
Definition fits_size_t (w : wstring) : Prop := (N.of_nat (length w) < 2 ^ 64)%N.

(** What the scan keeps true of its pointers and of its two quoting flags
    before the iteration of index [i]. *)
Definition scan_inv (i : nat) (s : ParseState) : Prop :=
  StronglySorted lt (args s)
  /\ Forall (fun p => p <= i) (args s)
  /\ (isBetweenFileNameQuotes s = false -> Forall (fun p => p < i) (args s))
  /\ isBetweenFileNameQuotes s && isStringInArg s = false.

(** What the scan keeps true of the buffer [buf0] it started from: the cells
    from [i] on are untouched, and once the scan is to stop, the last pointer
    is the index just handled and the cells from there on are untouched. *)
Definition capture_inv (buf0 : list TCHAR) (i : nat) (s : ParseState) : Prop :=
  (forall j, i <= j -> cmdLine s !! j = buf0 !! j)
  /\ (shouldBeTerminated s = true ->
      exists front p, args s = front ++ [p] /\ S p = i
        /\ forall j, p <= j -> cmdLine s !! j = buf0 !! j).

(** The quotes of a token, read from left to right: [afterEquals] says that
    the character before is an equals sign, [inString] that an equals-quoted
    string is open.  Every quote either closes the equals-quoted string that
    is open, or opens one and stands directly after an equals sign. *)
Fixpoint equals_string_quotes (afterEquals inString : bool) (tok : list TCHAR)
    : bool :=
  match tok with
  | [] => true
  | c :: tok' =>
      if (c =? ch_quote)%N then
        if inString then equals_string_quotes false false tok'
        else afterEquals && equals_string_quotes false true tok'
      else equals_string_quotes (c =? ch_equals)%N inString tok'
  end.

(** The same reading, one character at a time: the two flags after the
    character, or nothing once a quote is out of place. *)
Definition quote_step (st : option (bool * bool)) (c : TCHAR)
    : option (bool * bool) :=
  match st with
  | None => None
  | Some (afterEquals, inString) =>
      if (c =? ch_quote)%N then
        if inString then Some (false, false)
        else if afterEquals then Some (false, true) else None
      else Some ((c =? ch_equals)%N, inString)
  end.

Definition quote_state (tok : list TCHAR) : option (bool * bool) :=
  fold_left quote_step tok (Some (false, false)).

(** What the pointer [p] shows of its token before the iteration of index
    [i]: the cells from [p] to [i], cut at the first terminator. *)
Definition token_so_far (buf : list TCHAR) (p i : nat) : list TCHAR :=
  c_str (take (i - p) (drop p buf)).

(** The token at [p] has its quotes in place so far, and while no terminator
    has closed it, its two flags are those of the scan. *)
Definition token_quotes_ok (buf : list TCHAR) (inString : bool) (i p : nat)
    : Prop :=
  exists afterEquals ins,
    quote_state (token_so_far buf p i) = Some (afterEquals, ins)
    /\ (length (token_so_far buf p i) = i - p ->
        ins = inString
        /\ (afterEquals = true <-> p < i /\ buf !! (i - 1) = Some ch_equals)).

(** What the scan of a line of [n] characters keeps true of the quotes of its
    tokens before the iteration of index [i]. *)
Definition token_quotes_inv (n i : nat) (s : ParseState) : Prop :=
  scan_inv i s
  /\ length (cmdLine s) = S n
  /\ (isInWhiteSpace s = true -> isBetweenFileNameQuotes s = false ->
      isStringInArg s = false ->
      i = 0 \/ cmdLine s !! (i - 1) = Some ch_nul)
  /\ (forall front p, args s = front ++ [p] ->
      Forall (fun q => length (token_so_far (cmdLine s) q i) < i - q) front)
  /\ Forall (token_quotes_ok (cmdLine s) (isStringInArg s) i) (args s).

(** * Properties *)

(** ** C strings *)

Lemma c_str_nul_free w : nul_free (c_str w).
Proof.
  induction w as [|c w IH]; simpl; [constructor|].
  destruct (N.eqb_spec c ch_nul); [constructor|]. by constructor.
Qed.

Lemma c_str_id w : nul_free w -> c_str w = w.
Proof.
  induction 1 as [|c w Hc _ IH]; simpl; [done|].
  destruct (N.eqb_spec c ch_nul); [done|]. by rewrite IH.
Qed.

Lemma c_str_idemp w : c_str (c_str w) = c_str w.
Proof. apply c_str_id, c_str_nul_free. Qed.

Lemma c_str_app w k : nul_free w -> c_str (w ++ k) = w ++ c_str k.
Proof.
  induction 1 as [|c w Hc _ IH]; simpl; [done|].
  destruct (N.eqb_spec c ch_nul); [done|]. by rewrite IH.
Qed.

Lemma c_str_cons c w : c <> ch_nul -> c_str (c :: w) = c :: c_str w.
Proof. intros Hc. simpl. by destruct (N.eqb_spec c ch_nul). Qed.

Lemma c_str_elem x w : x ∈ c_str w -> x ∈ w.
Proof.
  induction w as [|c w IH]; simpl; [done|].
  destruct (N.eqb_spec c ch_nul); [by rewrite elem_of_nil|].
  rewrite !elem_of_cons. intros [->|Hx]; [by left|right; by apply IH].
Qed.

Lemma tokenIs_nul_free lit tok :
  nul_free tok -> nul_free (TEXT lit) ->
  tokenIs lit tok = true <-> tok = TEXT lit.
Proof.
  intros Ht Hl. unfold tokenIs, lstrcmp_is0.
  rewrite bool_decide_eq_true, !c_str_id by done. done.
Qed.

(** ** The loops over the parameter vector *)

Lemma split_first_Some P l a x b :
  split_first P l = Some (a, x, b) -> earliest_match P l a x b.
Proof.
  revert a. induction l as [|t l IH]; intros a; simpl; [done|].
  destruct (P t) eqn:Ht.
  - intros Heq. injection Heq as <- <- <-. by repeat split.
  - destruct (split_first P l) as [[[a' x'] b']|]; [|done].
    intros Heq. injection Heq as <- <- <-.
    destruct (IH a' eq_refl) as (-> & Hpre & Hx).
    repeat split; [by constructor|done].
Qed.

Lemma split_first_None P l : split_first P l = None -> no_match P l.
Proof.
  induction l as [|t l IH]; simpl; [constructor|].
  destruct (P t) eqn:Ht; [done|].
  destruct (split_first P l) as [[[a' x'] b']|]; [done|].
  intros _. constructor; [done|by apply IH].
Qed.

Lemma earliest_match_split_first P l a x b :
  earliest_match P l a x b -> split_first P l = Some (a, x, b).
Proof.
  intros (-> & Hpre & Hx). induction Hpre as [|t a Ht _ IH]; simpl.
  - by rewrite Hx.
  - by rewrite Ht, IH.
Qed.

Lemma no_match_split_first P l : no_match P l -> split_first P l = None.
Proof. induction 1 as [|t l Ht _ IH]; simpl; [done|]. by rewrite Ht, IH. Qed.

Lemma snoc_app {A} (pre : list A) t rest : (pre ++ [t]) ++ rest = pre ++ t :: rest.
Proof. by rewrite <- app_assoc. Qed.

Lemma insert_middle {A} (pre : list A) t x rest :
  <[length pre := x]> (pre ++ t :: rest) = pre ++ x :: rest.
Proof.
  rewrite <- (Nat.add_0_r (length pre)). by rewrite insert_app_r.
Qed.

Lemma isInListLoop_split lit erase rest pre :
  isInListLoop (length rest) (length pre) lit (pre ++ rest) erase =
  match split_first (lstrcmp_is0 lit) rest with
  | Some (a, _, b) => (true, if erase then pre ++ a ++ b else pre ++ rest)
  | None => (false, pre ++ rest)
  end.
Proof.
  revert pre. induction rest as [|t rest IH]; intros pre; [done|].
  cbn [isInListLoop length split_first].
  rewrite list_lookup_middle by done.
  destruct (lstrcmp_is0 lit t) eqn:Ht.
  - by rewrite delete_middle.
  - specialize (IH (pre ++ [t])). rewrite length_app, Nat.add_1_r, snoc_app in IH.
    rewrite IH. destruct (split_first _ rest) as [[[a x] b]|]; [|done].
    by rewrite <- !app_assoc.
Qed.

Lemma getParamValLoop_split c rest pre :
  getParamValLoop (length rest) (length pre) c (pre ++ rest) =
  match split_first (isFlagToken c) rest with
  | Some (a, tok, b) => Ret (true, drop 2 (c_str tok), pre ++ a ++ b)
  | None => Ret (false, [], pre ++ rest)
  end.
Proof.
  revert pre. induction rest as [|t rest IH]; intros pre; [done|].
  cbn [getParamValLoop length split_first].
  unfold at_. rewrite list_lookup_middle by done. cbn [bind].
  destruct (isFlagToken c t) eqn:Ht.
  - by rewrite delete_middle.
  - specialize (IH (pre ++ [t])). rewrite length_app, Nat.add_1_r, snoc_app in IH.
    rewrite IH. destruct (split_first _ rest) as [[[a x] b]|]; [|done].
    by rewrite <- !app_assoc.
Qed.

Lemma getParamValFromStringLoop_split str rest pre :
  getParamValFromStringLoop (length rest) (length pre) str (pre ++ rest) =
  match split_first (hasKeyPrefix str) rest with
  | Some (a, tok, b) =>
      Ret (true, drop (lstrlen str) (c_str tok), pre ++ a ++ b)
  | None => Ret (false, [], pre ++ rest)
  end.
Proof.
  revert pre. induction rest as [|t rest IH]; intros pre; [done|].
  cbn [getParamValFromStringLoop length split_first].
  unfold at_. rewrite list_lookup_middle by done. cbn [bind].
  destruct (hasKeyPrefix str t) eqn:Ht.
  - by rewrite delete_middle.
  - specialize (IH (pre ++ [t])). rewrite length_app, Nat.add_1_r, snoc_app in IH.
    rewrite IH. destruct (split_first _ rest) as [[[a x] b]|]; [|done].
    by rewrite <- !app_assoc.
Qed.

Lemma isInList_split lit params :
  isInList lit params true =
  match split_first (lstrcmp_is0 lit) params with
  | Some (a, _, b) => (true, a ++ b)
  | None => (false, params)
  end.
Proof. apply (isInListLoop_split lit true params []). Qed.

Lemma getParamVal_split c params :
  getParamVal c params =
  match split_first (isFlagToken c) params with
  | Some (a, tok, b) => Ret (true, drop 2 (c_str tok), a ++ b)
  | None => Ret (false, [], params)
  end.
Proof. apply (getParamValLoop_split c params []). Qed.

Lemma getParamValFromString_split str params :
  getParamValFromString str params =
  match split_first (hasKeyPrefix str) params with
  | Some (a, tok, b) => Ret (true, drop (lstrlen str) (c_str tok), a ++ b)
  | None => Ret (false, [], params)
  end.
Proof. apply (getParamValFromStringLoop_split str params []). Qed.

(** [find] answers position 0 exactly for a prefix. *)
Lemma wstring_find_0 s str :
  wstring_find s str = Some 0 <-> starts_with str s = true.
Proof.
  destruct s as [|d s]; simpl.
  - destruct (starts_with str []); naive_solver.
  - destruct (starts_with str (d :: s)); [done|].
    destruct (wstring_find s str); simpl; naive_solver.
Qed.

Lemma starts_with_app str s : starts_with str (str ++ s) = true.
Proof. induction str as [|c str IH]; simpl; [done|]. by rewrite N.eqb_refl. Qed.

Lemma starts_with_inv str s :
  starts_with str s = true -> exists v, s = str ++ v.
Proof.
  revert s. induction str as [|c str IH]; intros s; simpl; [by exists s|].
  destruct s as [|d s]; [done|].
  intros [->%N.eqb_eq [v ->]%IH]%andb_prop. by exists v.
Qed.

(** The test of [getParamValFromString] accepts the tokens that start with
    [str]. *)
Lemma hasKeyPrefix_starts str tok :
  hasKeyPrefix str tok = true <-> exists v, c_str tok = c_str str ++ v.
Proof.
  unfold hasKeyPrefix. rewrite bool_decide_eq_true, wstring_find_0. split.
  - apply starts_with_inv.
  - intros [v ->]. apply starts_with_app.
Qed.

Lemma takes_earliest_split_first {R} P params (found : wstring -> ParamVector -> R)
    absent :
  takes_earliest P params found absent
    match split_first P params with
    | Some (a, tok, b) => found tok (a ++ b)
    | None => absent
    end.
Proof.
  destruct (split_first P params) as [[[a tok] b]|] eqn:Hs.
  - left. exists a, tok, b. split; [by apply split_first_Some|done].
  - right. split; [by apply split_first_None|done].
Qed.

Lemma convertLoop_map rest pre :
  convertLoop (length rest) (length pre) (pre ++ rest) =
  pre ++ map normalize_token rest.
Proof.
  revert pre. induction rest as [|t rest IH]; intros pre; [done|].
  cbn [convertLoop length map].
  rewrite list_lookup_middle by done.
  assert (forall x, convertLoop (length rest) (S (length pre)) (pre ++ x :: rest)
                    = pre ++ x :: map normalize_token rest) as IH'.
  { intros x. specialize (IH (pre ++ [x])).
    by rewrite length_app, Nat.add_1_r, !snoc_app in IH. }
  unfold normalize_token at 1. unfold tokenIs.
  destruct (lstrcmp_is0 t (TEXT "/p") || lstrcmp_is0 t (TEXT "/P")).
  - rewrite insert_middle. apply IH'.
  - apply IH'.
Qed.

Lemma stripLoop_spec fuel : forall rest pre,
  length rest <= fuel ->
  stripLoop fuel (length pre) (pre ++ rest) = Some (pre ++ strip_spec rest).
Proof.
  induction fuel as [|fuel IH]; intros rest pre Hlen.
  - destruct rest; [|simpl in Hlen; lia]. cbn [stripLoop].
    by rewrite lookup_ge_None_2 by (rewrite app_nil_r; lia).
  - destruct rest as [|tok rest].
    { cbn [stripLoop]. by rewrite lookup_ge_None_2 by (rewrite app_nil_r; lia). }
    cbn [stripLoop strip_spec]. rewrite list_lookup_middle by done.
    unfold tokenIs. destruct (lstrcmp_is0 tok (TEXT "-z")).
    + destruct rest as [|nxt rest].
      * rewrite lookup_ge_None_2 by (rewrite length_app; simpl; lia).
        rewrite delete_middle.
        apply (IH [] pre). simpl; lia.
      * rewrite <- (snoc_app pre tok (nxt :: rest)).
        rewrite list_lookup_middle by (rewrite length_app; simpl; lia).
        replace (S (length pre)) with (length (pre ++ [tok]))
          by (rewrite length_app; simpl; lia).
        rewrite delete_middle, snoc_app, delete_middle.
        apply IH. simpl in Hlen; lia.
    + specialize (IH rest (pre ++ [tok])).
      rewrite length_app, Nat.add_1_r, snoc_app in IH.
      rewrite IH by (simpl in Hlen; lia). by rewrite <- app_assoc.
Qed.

(** ** The extraction operations *)

(** C6: each of the four extraction operations ([isInList] for
    takeIfPresent, [getParamVal] for takeFlagValue, [getParamValFromString]
    for takeKeyedValue, [getNumberFromParam] for takeNumber) removes exactly
    the earliest token that matches and keeps the others in their order, or
    answers absent on an unchanged vector when none matches.  On a vector whose
    only match for the letter l is -lcpp, takeFlagValue answers cpp and removes
    that token, and the same call on what is left answers absent. *)
Theorem extraction_takes_earliest_match (_ttoi64 : list TCHAR -> Z)
    (literal : list TCHAR) (letter : TCHAR) (prefix : list TCHAR)
    (params : ParamVector) :
  takes_earliest (lstrcmp_is0 literal) params
    (fun _ params' => (true, params')) (false, params)
    (isInList literal params true)
  /\ takes_earliest (isFlagToken letter) params
    (fun tok params' => Ret (true, drop 2 (c_str tok), params'))
    (Ret (false, [], params))
    (getParamVal letter params)
  /\ takes_earliest (hasKeyPrefix prefix) params
    (fun tok params' => Ret (true, drop (lstrlen prefix) (c_str tok), params'))
    (Ret (false, [], params))
    (getParamValFromString prefix params)
  /\ takes_earliest (isFlagToken letter) params
    (fun tok params' => Ret (_ttoi64 (drop 2 (c_str tok)), true, params'))
    (Ret ((-1)%Z, false, params))
    (getNumberFromParam _ttoi64 letter params)
  /\ (forall pre post : ParamVector,
        no_match (isFlagToken 108%N) (pre ++ post) ->
        getParamVal 108%N (pre ++ TEXT "-lcpp" :: post)
          = Ret (true, TEXT "cpp", pre ++ post)
        /\ getParamVal 108%N (pre ++ post) = Ret (false, [], pre ++ post)).
Proof.
  repeat apply conj.
  - rewrite isInList_split. apply takes_earliest_split_first.
  - rewrite getParamVal_split. apply takes_earliest_split_first.
  - rewrite getParamValFromString_split. apply takes_earliest_split_first.
  - unfold getNumberFromParam. rewrite getParamVal_split.
    pose proof (takes_earliest_split_first (isFlagToken letter) params
      (fun tok params' => Ret (_ttoi64 (drop 2 (c_str tok)), true, params'))
      (Ret ((-1)%Z, false, params))) as H.
    by destruct (split_first _ params) as [[[a tok] b]|].
  - intros pre post Hno. rewrite !getParamVal_split. split.
    + rewrite (earliest_match_split_first _ _ pre (TEXT "-lcpp") post); [done|].
      apply Forall_app in Hno as [Hpre _]. by repeat split.
    + by rewrite no_match_split_first.
Qed.

Lemma extraction_takes_earliest_match_witness :
  getParamVal 108%N ([TEXT "a.txt"] ++ TEXT "-lcpp" :: [TEXT "-n12"])
    = Ret (true, TEXT "cpp", [TEXT "a.txt"] ++ [TEXT "-n12"])
  /\ getParamVal 108%N ([TEXT "a.txt"] ++ [TEXT "-n12"])
     = Ret (false, [], [TEXT "a.txt"] ++ [TEXT "-n12"]).
Proof.
  apply (extraction_takes_earliest_match (fun _ => 0%Z) [] 108%N []
           ([TEXT "a.txt"] ++ TEXT "-lcpp" :: [TEXT "-n12"])).
  repeat constructor.
Defined.

(** C9, as the code has it: when the earliest token that matches the letter
    is exactly the dash and the letter, takeFlagValue answers present with
    the empty string and removes that token; when no token matches it
    answers absent, so the two cases differ in the returned flag. *)
Theorem takeFlagValue_bare_flag (letter : TCHAR) (pre post : ParamVector) :
  letter <> ch_nul ->
  no_match (isFlagToken letter) pre ->
  getParamVal letter (pre ++ [ch_dash; letter] :: post)
    = Ret (true, [], pre ++ post)
  /\ (no_match (isFlagToken letter) post ->
      getParamVal letter (pre ++ post) = Ret (false, [], pre ++ post)).
Proof.
  intros Hl Hpre. rewrite !getParamVal_split. split.
  - rewrite (earliest_match_split_first _ _ pre [ch_dash; letter] post).
    + by rewrite !c_str_cons by done.
    + repeat split; [done|]. unfold isFlagToken, lstrlen, peek.
      rewrite !c_str_cons by done. simpl. by rewrite N.eqb_refl.
  - intros Hpost. rewrite no_match_split_first; [done|].
    by apply Forall_app.
Qed.

Lemma takeFlagValue_bare_flag_witness :
  getParamVal 108%N ([TEXT "a.txt"] ++ [ch_dash; 108%N] :: [TEXT "-lcpp"])
    = Ret (true, [], [TEXT "a.txt"] ++ [TEXT "-lcpp"]).
Proof.
  apply (takeFlagValue_bare_flag 108%N [TEXT "a.txt"] [TEXT "-lcpp"]).
  - discriminate.
  - repeat constructor.
Defined.

(** C9 as stated fails: the vector holds the token -l, yet takeFlagValue
    answers the value of the earlier token -lcpp and leaves -l in place. *)
Lemma takeFlagValue_bare_flag_counterexample :
  (TEXT "-l" ∈ [TEXT "-lcpp"; TEXT "-l"])
  /\ getParamVal 108%N [TEXT "-lcpp"; TEXT "-l"]
     = Ret (true, TEXT "cpp", [TEXT "-l"]).
Proof. split; [|reflexivity]. rewrite !elem_of_cons. by right; left. Qed.

(** ** The Normalizer *)

(** C8: [convertParamsToNotepadStyle] replaces every token /p or /P, the
    first token included, by -quickPrint and leaves every other token as it
    is; the vector keeps its length and every token its position. *)
Theorem convertParamsToNotepadStyle_rewrites (params : ParamVector) :
  convertParamsToNotepadStyle params = map normalize_token params
  /\ length (convertParamsToNotepadStyle params) = length params
  /\ (forall i, convertParamsToNotepadStyle params !! i
                = normalize_token <$> params !! i)
  /\ (forall tok, tokenIs "/p" tok || tokenIs "/P" tok = true ->
                  normalize_token tok = TEXT "-quickPrint")
  /\ (forall tok, tokenIs "/p" tok || tokenIs "/P" tok = false ->
                  normalize_token tok = tok)
  /\ (forall tok, nul_free tok -> tok <> TEXT "/p" -> tok <> TEXT "/P" ->
                  normalize_token tok = tok).
Proof.
  assert (convertParamsToNotepadStyle params = map normalize_token params) as E
    by apply (convertLoop_map params []).
  rewrite E. repeat apply conj.
  - done.
  - apply length_map.
  - intros i. apply list_lookup_fmap.
  - intros tok H. unfold normalize_token. by rewrite H.
  - intros tok H. unfold normalize_token. by rewrite H.
  - intros tok Hnf Hp HP. unfold normalize_token.
    destruct (tokenIs "/p" tok) eqn:E1.
    { apply tokenIs_nul_free in E1; [done..|by repeat constructor]. }
    destruct (tokenIs "/P" tok) eqn:E2; [|done].
    apply tokenIs_nul_free in E2; [done..|by repeat constructor].
Qed.

(** ** The special-mode stripper *)

(** C7: [stripIgnoredParams] ends, and what it leaves is the vector without
    each token -z it meets and without the token right after it, when there
    is one; it goes on from the next token left, and the other tokens keep
    their order. *)
Theorem stripIgnoredParams_strips (params : ParamVector) :
  stripIgnoredParams params = Some (strip_spec params).
Proof. apply (stripLoop_spec (length params) params []). lia. Qed.

(** ** The scan of parseCommandLine *)

Lemma peek_lookup buf i c : buf !! i = Some c -> peek buf i = c.
Proof. unfold peek. by intros ->. Qed.

Lemma peek_middle pre c rest : peek (pre ++ c :: rest) (length pre) = c.
Proof. apply peek_lookup. by apply list_lookup_middle. Qed.

Lemma parseStep_cmdLine i s :
  cmdLine (parseStep i s) = cmdLine s
  \/ cmdLine (parseStep i s) = <[i := ch_nul]> (cmdLine s).
Proof.
  unfold parseStep, onQuote, onWhiteSpace, onOther.
  repeat match goal with |- context [if ?b then _ else _] => destruct b end;
    simpl; auto.
Qed.

Lemma parseStep_args i s : exists new, args (parseStep i s) = args s ++ new.
Proof.
  unfold parseStep, onQuote, onWhiteSpace, onOther.
  repeat match goal with |- context [if ?b then _ else _] => destruct b end;
    simpl; eauto using app_nil_r.
Qed.

Lemma parseLoop_terminated n i s :
  shouldBeTerminated s = true -> parseLoop n i s = s.
Proof. intros H. destruct n; simpl; [done|]. by rewrite H. Qed.

Lemma parseLoop_S n i s :
  shouldBeTerminated s = false ->
  parseLoop (S n) i s = parseLoop n (S i) (parseStep i s).
Proof. intros H. simpl. by rewrite H. Qed.

Lemma parseLoop_app a b i s :
  parseLoop (a + b) i s = parseLoop b (i + a) (parseLoop a i s).
Proof.
  revert i s. induction a as [|a IH]; intros i s; simpl.
  - by rewrite Nat.add_0_r.
  - destruct (shouldBeTerminated s) eqn:Ht.
    + by rewrite parseLoop_terminated.
    + rewrite IH. f_equal. lia.
Qed.

(** The loop as an invariant rule: [k] is the number of iterations taken. *)
Lemma parseLoop_invariant (bound : nat) (P : nat -> ParseState -> Prop) :
  (forall i s, i < bound -> shouldBeTerminated s = false ->
               P i s -> P (S i) (parseStep i s)) ->
  forall n i s, i + n <= bound -> P i s ->
  exists k, k <= n /\ P (i + k) (parseLoop n i s)
            /\ (shouldBeTerminated (parseLoop n i s) = false -> k = n).
Proof.
  intros Hstep. induction n as [|n IH]; intros i s Hb HP; simpl.
  - exists 0. by rewrite Nat.add_0_r.
  - destruct (shouldBeTerminated s) eqn:Ht.
    + exists 0. rewrite Nat.add_0_r. repeat split; [lia|done|congruence].
    + destruct (IH (S i) (parseStep i s)) as (k & Hk & HPk & Hend);
        [lia|apply Hstep; [lia|done..]|].
      exists (S k). replace (i + S k) with (S i + k) by lia.
      repeat split; [lia|done|]. intros H. by rewrite Hend.
Qed.

Lemma parseLoop_cmdLine_lookup n i s j :
  j < i \/ i + n <= j ->
  cmdLine (parseLoop n i s) !! j = cmdLine s !! j.
Proof.
  revert i s. induction n as [|n IH]; intros i s Hj; simpl; [done|].
  destruct (shouldBeTerminated s); [done|].
  rewrite IH by lia.
  destruct (parseStep_cmdLine i s) as [->| ->]; [done|].
  apply list_lookup_insert_ne. lia.
Qed.

Lemma parseLoop_args n i s : exists new, args (parseLoop n i s) = args s ++ new.
Proof.
  revert i s. induction n as [|n IH]; intros i s; simpl.
  - exists []. by rewrite app_nil_r.
  - destruct (shouldBeTerminated s).
    + exists []. by rewrite app_nil_r.
    + destruct (IH (S i) (parseStep i s)) as [new2 ->].
      destruct (parseStep_args i s) as [new1 ->].
      exists (new1 ++ new2). by rewrite app_assoc.
Qed.

Lemma lstrlen_lstrcpy cl : lstrlen (lstrcpy cl) = length (c_str cl).
Proof.
  unfold lstrlen, lstrcpy. rewrite c_str_app by apply c_str_nul_free.
  simpl. by rewrite app_nil_r.
Qed.

Lemma c_str_lookup w i x : c_str w !! i = Some x -> w !! i = Some x /\ x <> ch_nul.
Proof.
  revert i. induction w as [|c w IH]; intros i; simpl; [done|].
  destruct (N.eqb_spec c ch_nul); [done|].
  destruct i as [|i]; simpl; [|apply IH].
  intros Hx. injection Hx as <-. done.
Qed.

Lemma str_at_elem buf p x : x ∈ str_at buf p -> x ∈ buf.
Proof.
  unfold str_at. intros H%c_str_elem.
  apply list_elem_of_lookup in H as [i H]. rewrite lookup_drop in H.
  by eapply list_elem_of_lookup_2.
Qed.

Lemma peek_nonzero buf i c : peek buf i = c -> c <> ch_nul -> buf !! i = Some c.
Proof. unfold peek. destruct (buf !! i); simpl; congruence. Qed.

Lemma lstrcpy_lookup raw j x :
  lstrcpy raw !! j = Some x -> x <> ch_nul -> raw !! j = Some x.
Proof.
  unfold lstrcpy. intros H Hx.
  apply lookup_app_Some in H as [H|[_ H]].
  - by apply c_str_lookup in H as [H _].
  - destruct (j - length (c_str raw)) as [|m]; simpl in H; [|done].
    congruence.
Qed.

(** ** Empty tokens *)

Lemma parseLoop_cmdLine_cells n i s j :
  cmdLine (parseLoop n i s) !! j = cmdLine s !! j
  \/ cmdLine (parseLoop n i s) !! j = Some ch_nul.
Proof.
  revert i s. induction n as [|n IH]; intros i s; simpl; [by left|].
  destruct (shouldBeTerminated s); [by left|].
  destruct (IH (S i) (parseStep i s)) as [-> | ->]; [|by right].
  destruct (parseStep_cmdLine i s) as [-> | ->]; [by left|].
  rewrite list_lookup_insert. case_decide; [by right|by left].
Qed.

Lemma str_at_terminator buf p : buf !! p = Some ch_nul -> str_at buf p = [].
Proof. intros H. unfold str_at. by rewrite (drop_S _ _ _ H). Qed.

Lemma lstrcpy_lookup_lt raw j c :
  c_str raw !! j = Some c -> lstrcpy raw !! j = Some c.
Proof. intros H. unfold lstrcpy. by apply lookup_app_l_Some. Qed.

(** The two iterations over a quote that opens a quoted filename and the
    quote right after it. *)
Lemma parseStep_adjacent_quotes i s :
  shouldBeTerminated s = false ->
  isStringInArg s = false ->
  isBetweenFileNameQuotes s = false ->
  (0 <? i) && (peek (cmdLine s) (i - 1) =? ch_equals)%N = false ->
  cmdLine s !! i = Some ch_quote ->
  cmdLine s !! S i = Some ch_quote ->
  exists s2, parseLoop 2 i s = s2
    /\ cmdLine s2 !! S i = Some ch_nul
    /\ S i ∈ args s2.
Proof.
  intros Ht Hs Hb Hno Hi HSi. eexists. split; [reflexivity|].
  cbn [parseLoop]. rewrite Ht.
  assert (parseStep i s =
          mkParseState (<[i := ch_nul]> (cmdLine s)) true false false
            (if (zArg s =? 1)%Z then (zArg s + 1)%Z else zArg s)
            false (args s ++ [i + 1])) as ->.
  { unfold parseStep. rewrite (peek_lookup _ _ _ Hi). cbn [N.eqb Pos.eqb].
    unfold onQuote. rewrite Hs, Hb, Ht. cbn [negb andb].
    by rewrite Hno. }
  cbn [shouldBeTerminated].
  assert (<[i := ch_nul]> (cmdLine s) !! S i = Some ch_quote) as HSi'
    by (rewrite list_lookup_insert_ne by lia; done).
  unfold parseStep. cbn [cmdLine]. rewrite (peek_lookup _ _ _ HSi').
  cbn [N.eqb Pos.eqb]. unfold onQuote. cbn. split.
  - apply list_lookup_insert_eq. rewrite length_insert.
    by apply lookup_lt_Some in HSi.
  - rewrite Nat.add_1_r. apply elem_of_app. right. by apply list_elem_of_singleton.
Qed.

Lemma isInList_finds lit params tok :
  tok ∈ params -> lstrcmp_is0 lit tok = true ->
  (isInList lit params false).1 = true.
Proof.
  intros Hin Hm. unfold isInList.
  pose proof (isInListLoop_split lit false params []) as E. simpl in E.
  rewrite E. destruct (split_first _ params) as [[[a x] b]|] eqn:Hsf; [done|].
  apply split_first_None in Hsf. unfold no_match in Hsf.
  rewrite Forall_forall in Hsf. apply Hsf in Hin. congruence.
Qed.

(** C10, as the code has it: when a quote that opens a quoted filename is
    directly followed by another quote, as in the command line of exactly two
    quotes, the token vector holds an empty token, and a later extraction
    meets it as it meets any other token. *)
Theorem adjacent_quotes_give_empty_token (raw : list TCHAR) (i : nat)
    (paramVector : ParamVector) :
  opens_filename_quote raw i ->
  c_str raw !! S i = Some ch_quote ->
  [] ∈ parseCommandLine (Some raw) paramVector
  /\ (isInList (TEXT "") (parseCommandLine (Some raw) paramVector) false).1 = true.
Proof.
  intros (Hi & Ht & Hs & Hb & Hprev) HSi.
  assert ([] ∈ parseCommandLine (Some raw) paramVector) as Hin;
    [|split; [done|by apply (isInList_finds _ _ [])]].
  cbn [parseCommandLine]. unfold parseFinal. rewrite lstrlen_lstrcpy.
  pose proof (lookup_lt_Some _ _ _ HSi) as Hlen.
  replace (length (c_str raw)) with (i + (2 + (length (c_str raw) - i - 2)))
    by lia.
  rewrite parseLoop_app, parseLoop_app. cbn [Nat.add].
  fold (parseStateAt raw i).
  set (s := parseStateAt raw i) in *.
  assert (forall j, i <= j -> cmdLine s !! j = lstrcpy raw !! j) as Hframe.
  { intros j Hj. unfold s, parseStateAt.
    rewrite parseLoop_cmdLine_lookup by lia. done. }
  destruct (parseStep_adjacent_quotes i s) as (s2 & -> & Hnul & Hargs); try done.
  - destruct i as [|i]; [done|]. cbn [Nat.ltb Nat.leb andb].
    replace (S i - 1) with i in * by lia.
    apply N.eqb_neq. intros He. apply peek_nonzero in He; [|done].
    destruct Hprev as [|Hprev]; [done|]. apply Hprev.
    destruct (parseLoop_cmdLine_cells (S i) 0 (initParseState (lstrcpy raw)) i)
      as [E|E]; fold (parseStateAt raw (S i)) in E; fold s in E;
      rewrite He in E; [|done].
    symmetry in E. cbn [cmdLine initParseState] in E.
    unfold lstrcpy in E. rewrite lookup_app_l in E by lia. done.
  - rewrite Hframe by lia. by apply lstrcpy_lookup_lt.
  - rewrite Hframe by lia. by apply lstrcpy_lookup_lt.
  - set (final := parseLoop _ (i + 2) s2).
    assert (cmdLine final !! S i = Some ch_nul) as Hfin.
    { unfold final. rewrite parseLoop_cmdLine_lookup by lia. done. }
    destruct (parseLoop_args (length (c_str raw) - i - 2) (i + 2) s2) as [new Hnew].
    fold final in Hnew. unfold argsToParams.
    apply list_elem_of_fmap. exists (S i). split.
    + symmetry. by apply str_at_terminator.
    + rewrite Hnew. apply elem_of_app. by left.
Qed.

Lemma adjacent_quotes_give_empty_token_witness :
  [] ∈ parseCommandLine (Some (TEXT "a " ++ [ch_quote; ch_quote] ++ TEXT " b")) [].
Proof.
  apply (adjacent_quotes_give_empty_token
           (TEXT "a " ++ [ch_quote; ch_quote] ++ TEXT " b") 2 []).
  - repeat split; try reflexivity. right. discriminate.
  - reflexivity.
Defined.

(** C10 as stated fails: two quotes stand side by side outside any
    equals-quoted string, the first closing one quoted filename and the second
    opening the next, and no token is empty. *)
Lemma adjacent_quotes_give_empty_token_counterexample :
  parseCommandLine
    (Some ([ch_quote] ++ TEXT "a" ++ [ch_quote; ch_quote] ++ TEXT "b" ++ [ch_quote])) []
  = [TEXT "a"; TEXT "b"]
  /\ [] ∉ [TEXT "a"; TEXT "b"].
Proof.
  split; [reflexivity|]. rewrite !elem_of_cons, elem_of_nil.
  intros [H|[H|H]]; done.
Qed.

(** ** Command lines without quotes *)

Lemma fields_nonempty l : exists f fs, fields l = f :: fs.
Proof.
  destruct l as [|c l]; simpl; [by eexists _, _|].
  destruct (is_ws c); [by eexists _, _|].
  destruct (fields l); by eexists _, _.
Qed.

Lemma fields_app_token cur l :
  Forall (fun c => is_ws c = false) cur ->
  exists f fs, fields l = f :: fs /\ fields (cur ++ l) = (cur ++ f) :: fs.
Proof.
  induction 1 as [|c cur Hc _ IH]; simpl.
  - destruct (fields_nonempty l) as (f & fs & E). by exists f, fs.
  - destruct IH as (f & fs & E1 & E2). exists f, fs. by rewrite Hc, E2.
Qed.

Lemma split_cons_ws c l :
  is_ws c = true -> split_on_whitespace_runs (c :: l) = split_on_whitespace_runs l.
Proof.
  intros Hc. unfold split_on_whitespace_runs. simpl. rewrite Hc.
  by rewrite filter_cons_False by (intros H; by apply H).
Qed.

Lemma split_token_ws cur c l :
  cur <> [] -> Forall (fun c => is_ws c = false) cur -> is_ws c = true ->
  split_on_whitespace_runs (cur ++ c :: l) = cur :: split_on_whitespace_runs l.
Proof.
  intros Hne Hcur Hc. unfold split_on_whitespace_runs.
  destruct (fields_app_token cur (c :: l) Hcur) as (f & fs & E1 & ->).
  simpl in E1. rewrite Hc in E1. injection E1 as <- <-.
  rewrite app_nil_r. by rewrite filter_cons_True.
Qed.

Lemma split_token_end cur :
  cur <> [] -> Forall (fun c => is_ws c = false) cur ->
  split_on_whitespace_runs cur = [cur].
Proof.
  intros Hne Hcur. unfold split_on_whitespace_runs.
  destruct (fields_app_token cur [] Hcur) as (f & fs & E1 & E2).
  rewrite app_nil_r in E2. rewrite E2.
  simpl in E1. injection E1 as <- <-.
  rewrite app_nil_r. by rewrite filter_cons_True.
Qed.

Lemma is_ws_not_quote c : is_ws c = true -> (c =? ch_quote)%N = false.
Proof.
  unfold is_ws. intros [->%N.eqb_eq| ->%N.eqb_eq]%orb_prop; reflexivity.
Qed.

Lemma parseStep_ws done c rest w z a :
  is_ws c = true ->
  parseStep (length done)
    (mkParseState (done ++ c :: rest) false false w z false a)
  = mkParseState (done ++ ch_nul :: rest) false false true
      (if (0 <? length a)
          && lstrcmp_is0 (str_at (done ++ ch_nul :: rest)
                            (default 0 (a !! (length a - 1)))) (TEXT "-z")
       then (z + 1)%Z else z)
      false a.
Proof.
  intros Hc. unfold parseStep. cbn [cmdLine]. rewrite peek_middle.
  rewrite (is_ws_not_quote c Hc). unfold is_ws in Hc. rewrite Hc.
  unfold onWhiteSpace. cbn. by rewrite insert_middle.
Qed.

Lemma parseStep_other done c rest w z a :
  is_ws c = false -> c <> ch_quote ->
  parseStep (length done)
    (mkParseState (done ++ c :: rest) false false w z false a)
  = if w
    then mkParseState (done ++ c :: rest) false false false z
           (if (z =? 2)%Z then true else false) (a ++ [length done])
    else mkParseState (done ++ c :: rest) false false w z false a.
Proof.
  intros Hc Hq. unfold parseStep. cbn [cmdLine]. rewrite peek_middle.
  apply N.eqb_neq in Hq. rewrite Hq. unfold is_ws in Hc. rewrite Hc.
  unfold onOther. cbn. by destruct w.
Qed.

Lemma str_at_middle done c X :
  c <> ch_nul -> str_at (done ++ c :: X) (length done) = c :: c_str X.
Proof. intros Hc. unfold str_at. by rewrite drop_app_length, c_str_cons. Qed.

(** The last pointer of [args] is one of the pointers. *)
Lemma last_arg_elem buf (a : list nat) :
  (0 <? length a) = true ->
  str_at buf (default 0 (a !! (length a - 1))) ∈ map (str_at buf) a.
Proof.
  intros Hlen%Nat.ltb_lt.
  destruct (lookup_lt_is_Some_2 a (length a - 1)) as [p Hp]; [lia|].
  rewrite Hp. simpl. apply list_elem_of_fmap. exists p.
  split; [done|]. by eapply list_elem_of_lookup_2.
Qed.

Lemma lstrcmp_is0_str_at buf p lit :
  nul_free (TEXT lit) ->
  lstrcmp_is0 (str_at buf p) (TEXT lit) = true -> str_at buf p = TEXT lit.
Proof.
  intros Hl. unfold lstrcmp_is0, str_at.
  rewrite bool_decide_eq_true, c_str_idemp, (c_str_id (TEXT lit)) by done. done.
Qed.

(** The counter stays where it is over a white space when no token read so
    far is the marker. *)
Lemma zArg_unchanged buf (a : list nat) (z : Z) :
  TEXT "-z" ∉ map (str_at buf) a ->
  (if (0 <? length a)
      && lstrcmp_is0 (str_at buf (default 0 (a !! (length a - 1)))) (TEXT "-z")
   then (z + 1)%Z else z) = z.
Proof.
  intros Hno. destruct (0 <? length a) eqn:Hlen; [|done]. cbn [andb].
  destruct (lstrcmp_is0 _ _) eqn:Hz; [|done].
  apply lstrcmp_is0_str_at in Hz; [|by repeat constructor].
  exfalso. apply Hno. rewrite <- Hz. by apply last_arg_elem.
Qed.

(** The scan over a stretch [rest] without quotes, from white space
    ([w = true]: every token read so far is terminated) or from inside a token
    ([w = false]: [cur] is what has been read of the last token). *)
Lemma parseLoop_plain rest :
  Forall plain_char rest ->
  forall (done : list TCHAR) (w : bool) (z : Z) (a : list nat)
         (toks : ParamVector) (cur : wstring),
  (if w then cur = [] else cur <> []) ->
  Forall (fun c => is_ws c = false) cur ->
  (forall X, map (str_at (done ++ X)) a
             = if w then toks else toks ++ [cur ++ c_str X]) ->
  let final := parseLoop (length rest) (length done)
                 (mkParseState (done ++ rest ++ [ch_nul]) false false w z false a) in
  let result := toks ++ split_on_whitespace_runs (cur ++ rest) in
  shouldBeTerminated final = false \/ (z = 0%Z /\ TEXT "-z" ∉ result) ->
  shouldBeTerminated final = false /\ argsToParams final = result.
Proof.
  induction 1 as [|c rest [Hnul Hquote] _ IH];
    intros done w z a toks cur Hw Hcur Htoks final result Hok.
  - subst final result. cbn [parseLoop length]. split; [done|].
    unfold argsToParams. cbn [cmdLine args]. rewrite app_nil_l, Htoks.
    destruct w.
    + subst cur. unfold split_on_whitespace_runs. simpl.
      rewrite filter_cons_False by (intros H; by apply H).
      by rewrite filter_nil, app_nil_r.
    + rewrite !app_nil_r. by rewrite split_token_end.
  - subst final result. cbn [parseLoop length shouldBeTerminated app] in *.
    destruct (is_ws c) eqn:Hc.
    + (* white space: the token in progress, if any, ends here *)
      rewrite parseStep_ws in * by done.
      assert (split_on_whitespace_runs (cur ++ c :: rest)
              = (if w then [] else [cur]) ++ split_on_whitespace_runs rest) as Hsplit.
      { destruct w; [subst cur; by apply split_cons_ws|by apply split_token_ws]. }
      rewrite Hsplit, app_assoc in *.
      assert (forall X, map (str_at ((done ++ [ch_nul]) ++ X)) a
                        = toks ++ (if w then [] else [cur])) as Htoks'.
      { intros X. rewrite snoc_app, Htoks. destruct w; [by rewrite app_nil_r|].
        by rewrite app_nil_r. }
      specialize (IH (done ++ [ch_nul]) true
        (if (0 <? length a)
            && lstrcmp_is0 (str_at (done ++ ch_nul :: rest ++ [ch_nul])
                              (default 0 (a !! (length a - 1)))) (TEXT "-z")
         then (z + 1)%Z else z)
        a (toks ++ (if w then [] else [cur])) (@nil N) eq_refl (Forall_nil_2 _) Htoks').
      rewrite length_app, Nat.add_1_r, snoc_app in IH. cbn [app] in IH.
      apply IH. destruct Hok as [Hok|[-> Hok]]; [by left|right].
      split; [|done]. apply zArg_unchanged.
      rewrite <- (snoc_app done ch_nul), Htoks'.
      intros Hin. apply Hok. apply elem_of_app. by left.
    + (* any other character *)
      rewrite parseStep_other in * by done.
      assert (forall X, map (str_at ((done ++ [c]) ++ X)) (if w then a ++ [length done] else a)
                        = toks ++ [(cur ++ [c]) ++ c_str X]) as Htoks'.
      { intros X. rewrite snoc_app. destruct w.
        - subst cur. rewrite map_app, Htoks. cbn [map app].
          by rewrite str_at_middle.
        - rewrite Htoks, c_str_cons by done. by rewrite <- app_assoc. }
      assert (Forall (fun c => is_ws c = false) (cur ++ [c])) as Hcur'.
      { apply Forall_app. split; [done|by constructor]. }
      assert (cur ++ [c] <> []) as Hne by (by destruct cur).
      replace (cur ++ c :: rest) with ((cur ++ [c]) ++ rest) in *
        by (by rewrite <- app_assoc).
      destruct w.
      * destruct (z =? 2)%Z eqn:Hz.
        { exfalso. rewrite parseLoop_terminated in Hok by done.
          destruct Hok as [Hok|[-> _]]; done. }
        specialize (IH (done ++ [c]) false z (a ++ [length done]) toks (cur ++ [c])
                      Hne Hcur' Htoks').
        rewrite length_app, Nat.add_1_r, snoc_app in IH. by apply IH.
      * specialize (IH (done ++ [c]) false z a toks (cur ++ [c]) Hne Hcur' Htoks').
        rewrite length_app, Nat.add_1_r, snoc_app in IH. by apply IH.
Qed.

(** C4, as the code has it: for a command line with no quote character whose
    scan does not end in verbatim capture, which is so whenever no piece of the
    split is the marker -z, the tokens are the pieces of the split on maximal
    runs of space and tab (none for the empty command line). *)
Theorem quote_free_tokens_are_whitespace_split (raw : list TCHAR)
    (paramVector : ParamVector) :
  ch_quote ∉ raw ->
  shouldBeTerminated (parseFinal raw) = false
  \/ TEXT "-z" ∉ split_on_whitespace_runs (c_str raw) ->
  parseCommandLine (Some raw) paramVector = split_on_whitespace_runs (c_str raw).
Proof.
  intros Hq Hok. cbn [parseCommandLine]. unfold parseFinal in *.
  rewrite lstrlen_lstrcpy in *.
  apply (parseLoop_plain (c_str raw)) with
    (done := []) (w := true) (z := 0%Z) (a := []) (toks := []) (cur := []).
  - pose proof (c_str_nul_free raw) as Hnul. unfold nul_free in Hnul.
    rewrite Forall_forall in *. intros c Hc. split; [by apply Hnul|].
    intros ->. by apply Hq, c_str_elem.
  - done.
  - constructor.
  - done.
  - destruct Hok as [Hok|Hok]; [by left|by right].
Qed.

Lemma quote_free_tokens_are_whitespace_split_witness :
  parseCommandLine (Some (TEXT "  -ro" ++ [ch_tab] ++ TEXT "a.txt  b.txt ")) []
  = split_on_whitespace_runs
      (c_str (TEXT "  -ro" ++ [ch_tab] ++ TEXT "a.txt  b.txt ")).
Proof.
  apply (quote_free_tokens_are_whitespace_split
           (TEXT "  -ro" ++ [ch_tab] ++ TEXT "a.txt  b.txt ") []).
  - apply (bool_decide_unpack _). vm_compute. exact I.
  - left. reflexivity.
Defined.

(** C4 as stated fails: no quote stands in this command line, the marker is
    followed by its argument (the marker again), and the rest is captured
    verbatim as one token where the split gives two. *)
Lemma quote_free_tokens_are_whitespace_split_counterexample :
  (ch_quote ∉ TEXT "-z -z Y Z")
  /\ parseCommandLine (Some (TEXT "-z -z Y Z")) []
     = [TEXT "-z"; TEXT "-z"; TEXT "Y Z"]
  /\ split_on_whitespace_runs (TEXT "-z -z Y Z")
     = [TEXT "-z"; TEXT "-z"; TEXT "Y"; TEXT "Z"].
Proof.
  split; [|split; reflexivity].
  apply (bool_decide_unpack _). vm_compute. exact I.
Qed.

Lemma parseCommandLine_empty paramVector : parseCommandLine (Some []) paramVector = [].
Proof. reflexivity. Qed.

Lemma parseCommandLine_nul_free raw paramVector tok :
  tok ∈ parseCommandLine (Some raw) paramVector -> nul_free tok.
Proof.
  cbn [parseCommandLine]. unfold argsToParams.
  intros (p & -> & _)%list_elem_of_fmap. apply c_str_nul_free.
Qed.

(** ** The marker -z in the scan *)

(** The command line of the comment above [parseCommandLine], cut as the
    comment says: the argument after the marker stands in quotes. *)
Lemma parseCommandLine_documented_example :
  parseCommandLine
    (Some (TEXT "-notepadStyleCmdline -z " ++ [ch_quote]
           ++ TEXT "C:\WINDOWS\system32\NOTEPAD.EXE" ++ [ch_quote]
           ++ TEXT " C:\my folder\my file with whitespace.txt")) []
  = [TEXT "-notepadStyleCmdline"; TEXT "-z";
     TEXT "C:\WINDOWS\system32\NOTEPAD.EXE";
     TEXT "C:\my folder\my file with whitespace.txt"].
Proof. reflexivity. Qed.

Lemma parseLoop_in_quotes X :
  Forall (fun c => c <> ch_quote) X ->
  forall (done rest : list TCHAR) (w : bool) (z : Z) (a : list nat),
  exists w',
    parseLoop (length X) (length done)
      (mkParseState (done ++ X ++ rest) true false w z false a)
    = mkParseState (done ++ X ++ rest) true false w' z false a.
Proof.
  induction 1 as [|c X Hc _ IH]; intros done rest w z a.
  - by exists w.
  - cbn [parseLoop length shouldBeTerminated app].
    assert (exists w1, parseStep (length done)
              (mkParseState (done ++ c :: X ++ rest) true false w z false a)
            = mkParseState (done ++ c :: X ++ rest) true false w1 z false a)
      as [w1 ->].
    { unfold parseStep. cbn [cmdLine]. rewrite peek_middle.
      apply N.eqb_neq in Hc. rewrite Hc.
      destruct ((c =? ch_tab)%N || (c =? ch_space)%N); by eexists. }
    destruct (IH (done ++ [c]) rest w1 z a) as [w' E].
    rewrite length_app, Nat.add_1_r, snoc_app in E. by exists w'.
Qed.

Lemma parseStep_closing_quote done rest w z a :
  parseStep (length done)
    (mkParseState (done ++ ch_quote :: rest) true false w z false a)
  = mkParseState (done ++ ch_nul :: rest) false false false z false a.
Proof.
  unfold parseStep. cbn [cmdLine]. rewrite peek_middle. cbn.
  unfold onQuote. cbn. by rewrite insert_middle.
Qed.

(** When the argument after the marker stands in quotes and one space
    separates it from what follows, the argument is a token of its own and
    the rest of the command line, white space and quotes included, is the
    last token. *)
Lemma marker_quoted_argument_capture (X rest : list TCHAR) (c : TCHAR)
    (paramVector : ParamVector) :
  Forall plain_char X -> X <> TEXT "-z" ->
  plain_char c -> is_ws c = false -> nul_free rest ->
  parseCommandLine
    (Some (TEXT "-z " ++ [ch_quote] ++ X ++ [ch_quote; ch_space] ++ c :: rest))
    paramVector
  = [TEXT "-z"; X; c :: rest].
Proof.
  intros HX Hz [Hc0 Hcq] Hcw Hrest.
  assert (nul_free X) as HX0.
  { unfold nul_free. rewrite Forall_forall in *. intros x Hx. by apply HX. }
  assert (Forall (fun c => c <> ch_quote) X) as HXq.
  { rewrite Forall_forall in *. intros x Hx. by apply HX. }
  set (raw := TEXT "-z " ++ [ch_quote] ++ X ++ [ch_quote; ch_space] ++ c :: rest).
  assert (nul_free raw) as Hraw.
  { unfold raw. repeat (apply Forall_app; split); try done;
      repeat constructor; done. }
  cbn [parseCommandLine]. unfold parseFinal.
  rewrite lstrlen_lstrcpy. unfold lstrcpy. rewrite (c_str_id raw) by done.
  replace (length raw) with (4 + (length X + (3 + length rest))).
  2:{ unfold raw. rewrite !length_app. simpl. lia. }
  rewrite !parseLoop_app.
  (* the marker, the space after it and the opening quote *)
  assert (parseLoop 4 0 (initParseState (raw ++ [ch_nul]))
          = mkParseState ([ch_dash; 122%N; ch_nul; ch_nul]
                            ++ X ++ [ch_quote; ch_space] ++ c :: rest ++ [ch_nul])
              true false false 2%Z false [0; 4]) as ->.
  { unfold raw. rewrite <- !app_assoc. reflexivity. }
  (* the argument between the quotes *)
  destruct (parseLoop_in_quotes X HXq [ch_dash; 122%N; ch_nul; ch_nul]
              ([ch_quote; ch_space] ++ c :: rest ++ [ch_nul]) false 2%Z [0; 4])
    as [w' E].
  cbn [Nat.add length] in E |- *. rewrite E. clear E.
  (* the closing quote, the space and the first character of the rest *)
  set (d := [ch_dash; 122%N; ch_nul; ch_nul] ++ X).
  replace (S (S (S (S (length X))))) with (length d)
    by (unfold d; by rewrite length_app).
  replace ([ch_dash; 122%N; ch_nul; ch_nul] ++ X
             ++ [ch_quote; ch_space] ++ c :: rest ++ [ch_nul])
    with (d ++ ch_quote :: ch_space :: c :: rest ++ [ch_nul])
    by (unfold d; by rewrite <- app_assoc).
  rewrite (parseLoop_S 2) by done. rewrite parseStep_closing_quote.
  replace (S (length d)) with (length (d ++ [ch_nul]))
    by (rewrite length_app; simpl; lia).
  rewrite <- (snoc_app d ch_nul (ch_space :: c :: rest ++ [ch_nul])).
  rewrite (parseLoop_S 1) by done. rewrite parseStep_ws by done.
  assert (str_at ((d ++ [ch_nul]) ++ ch_nul :: c :: rest ++ [ch_nul]) 4 = X) as HX4.
  { unfold d, str_at. rewrite <- !app_assoc.
    change (drop 4 ([ch_dash; 122%N; ch_nul; ch_nul] ++ ?l)) with l.
    rewrite c_str_app by done. simpl. by rewrite app_nil_r. }
  change (default 0 ([0; 4] !! (length [0; 4] - 1))) with 4.
  change (0 <? length [0; 4]) with true. cbn [andb].
  rewrite HX4.
  assert (lstrcmp_is0 X (TEXT "-z") = false) as ->.
  { unfold lstrcmp_is0. apply bool_decide_eq_false.
    rewrite (c_str_id X) by done. done. }
  replace (S (length (d ++ [ch_nul]))) with (length ((d ++ [ch_nul]) ++ [ch_nul]))
    by (rewrite !length_app; simpl; lia).
  rewrite <- (snoc_app (d ++ [ch_nul]) ch_nul (c :: rest ++ [ch_nul])).
  rewrite (parseLoop_S 0) by done. rewrite parseStep_other by done.
  cbn [Z.eqb Pos.eqb parseLoop]. rewrite parseLoop_terminated by done.
  unfold argsToParams. cbn [cmdLine args map app].
  rewrite str_at_middle by done. rewrite c_str_app by done.
  cbn [c_str N.eqb]. rewrite app_nil_r.
  rewrite (snoc_app (d ++ [ch_nul]) ch_nul), HX4.
  by rewrite snoc_app.
Qed.

(** C3 at a command line whose argument after the marker is a single word
    without quotes: the counter stays at 1, no verbatim capture takes place and
    the rest of the line is cut at its white space. *)
Theorem unquoted_argument_after_marker_no_capture :
  parseCommandLine (Some (TEXT "-z notepad.exe my file.txt")) []
  = [TEXT "-z"; TEXT "notepad.exe"; TEXT "my"; TEXT "file.txt"]
  /\ zArg (parseFinal (TEXT "-z notepad.exe my file.txt")) = 1%Z
  /\ shouldBeTerminated (parseFinal (TEXT "-z notepad.exe my file.txt")) = false.
Proof. repeat split; reflexivity. Qed.

(** Every space met while the last argument is the marker adds one to the
    counter: after the marker and [n] spaces it stands at [n]. *)
Lemma parseLoop_spaces_after_marker n :
  forall (done : list TCHAR) (w : bool) (z : Z),
  (forall X, str_at (done ++ ch_nul :: X) 0 = TEXT "-z") ->
  zArg (parseLoop n (length done)
          (mkParseState (done ++ replicate n ch_space ++ [ch_nul])
             false false w z false [0]))
  = (z + Z.of_nat n)%Z.
Proof.
  induction n as [|n IH]; intros done w z Hdone.
  - simpl. lia.
  - rewrite parseLoop_S by done. cbn [replicate app].
    rewrite parseStep_ws by done.
    change (default 0 ([0] !! (length [0] - 1))) with 0.
    rewrite Hdone. cbn [length Nat.ltb Nat.leb andb].
    change (lstrcmp_is0 (TEXT "-z") (TEXT "-z")) with true. cbn iota.
    specialize (IH (done ++ [ch_nul]) true (z + 1)%Z).
    rewrite length_app, Nat.add_1_r, snoc_app in IH. rewrite IH; [lia|].
    intros X. by rewrite snoc_app.
Qed.

Lemma zArg_counts_spaces_after_marker n :
  zArg (parseFinal (TEXT "-z" ++ replicate n ch_space)) = Z.of_nat n.
Proof.
  unfold parseFinal. rewrite lstrlen_lstrcpy. unfold lstrcpy.
  rewrite (c_str_id (TEXT "-z" ++ replicate n ch_space)).
  2:{ apply Forall_app. split; [by repeat constructor|].
      apply Forall_forall. by intros c [-> _]%elem_of_replicate. }
  rewrite length_app, length_replicate. cbn [TEXT length].
  rewrite (parseLoop_app 2 n).
  change (TEXT "-z") with [ch_dash; 122%N].
  rewrite <- app_assoc.
  apply (parseLoop_spaces_after_marker n [ch_dash; 122%N] false 0%Z).
  reflexivity.
Qed.

(** C5 at a command line with three spaces after the marker: the counter is
    incremented at each of them, passes 2 and ends at 3, and no token starts
    a verbatim capture. *)
Theorem zArg_exceeds_two :
  zArg (parseStateAt (TEXT "-z   a b") 3) = 1%Z
  /\ zArg (parseStateAt (TEXT "-z   a b") 4) = 2%Z
  /\ zArg (parseStateAt (TEXT "-z   a b") 5) = 3%Z
  /\ zArg (parseFinal (TEXT "-z   a b")) = 3%Z
  /\ shouldBeTerminated (parseFinal (TEXT "-z   a b")) = false
  /\ parseCommandLine (Some (TEXT "-z   a b")) []
     = [TEXT "-z"; TEXT "a"; TEXT "b"].
Proof. repeat split; reflexivity. Qed.

(** ** The typing speed *)

(** What [getGhostTypingSpeedFromParam] answers, by the earliest token that
    starts with -qSpeed and by what [stoi] makes of the rest of it. *)
Lemma getGhostTypingSpeedFromParam_cases (params : ParamVector) :
  takes_earliest (hasKeyPrefix (TEXT "-qSpeed")) params
    (fun tok params' =>
       match stoi (drop 7 (c_str tok)) with
       | Ret speed =>
           Ret (if ((speed <=? 0) || (3 <? speed))%Z then (-1)%Z else speed,
                params')
       | Throw e => Throw e
       end)
    (Ret ((-1)%Z, params))
    (getGhostTypingSpeedFromParam params).
Proof.
  unfold getGhostTypingSpeedFromParam. rewrite getParamValFromString_split.
  pose proof (takes_earliest_split_first (hasKeyPrefix (TEXT "-qSpeed")) params
    (fun tok params' =>
       match stoi (drop 7 (c_str tok)) with
       | Ret speed =>
           Ret (if ((speed <=? 0) || (3 <? speed))%Z then (-1)%Z else speed,
                params')
       | Throw e => Throw e
       end)
    (Ret ((-1)%Z, params))) as H.
  destruct (split_first _ params) as [[[a tok] b]|]; [|done].
  cbn [bind negb]. change (lstrlen (TEXT "-qSpeed")) with 7.
  destruct (stoi (drop 7 (c_str tok))) as [speed|e]; cbn [bind]; [|done].
  by destruct ((speed <=? 0) || (3 <? speed))%Z.
Qed.

(** C2 at command lines whose speed does not parse: [std::stoi] throws, and
    nothing between it and the caller turns the exception into the absent
    result -1.  The values 2 and 5 and the absent option behave as stated. *)
Theorem typing_speed_parse_failure_throws :
  getGhostTypingSpeedFromParam
    (parseCommandLine (Some (TEXT "-qSpeedfast a.txt")) [])
  = Throw invalid_argument
  /\ getGhostTypingSpeedFromParam [TEXT "-qSpeed"] = Throw invalid_argument
  /\ getGhostTypingSpeedFromParam [TEXT "-qSpeed99999999999"]
     = Throw out_of_range
  /\ getGhostTypingSpeedFromParam [TEXT "-qSpeed2"; TEXT "a.txt"]
     = Ret (2%Z, [TEXT "a.txt"])
  /\ getGhostTypingSpeedFromParam [TEXT "-qSpeed5"; TEXT "a.txt"]
     = Ret ((-1)%Z, [TEXT "a.txt"])
  /\ getGhostTypingSpeedFromParam [TEXT "a.txt"] = Ret ((-1)%Z, [TEXT "a.txt"]).
Proof. repeat split; reflexivity. Qed.

(** * Further properties of the code *)

(** ** Extractions in sequence *)

Lemma split_first_cons_false P t l :
  P t = false ->
  find_first P (t :: l) = find_first P l
  /\ remove_first P (t :: l) = t :: remove_first P l.
Proof.
  intros Ht. unfold find_first, remove_first. simpl. rewrite Ht.
  by destruct (split_first P l) as [[[a x] b]|].
Qed.

Lemma split_first_cons_true P t l :
  P t = true ->
  find_first P (t :: l) = Some t /\ remove_first P (t :: l) = l.
Proof. intros Ht. unfold find_first, remove_first. simpl. by rewrite Ht. Qed.

(** Two tests that accept no common token: taking the earliest match of one
    does not change what the other finds, and the two removals commute. *)
Lemma first_match_commute (P Q : list N -> bool) (l : list (list N)) :
  (forall t, P t = true -> Q t = false) ->
  find_first P (remove_first Q l) = find_first P l
  /\ find_first Q (remove_first P l) = find_first Q l
  /\ remove_first P (remove_first Q l) = remove_first Q (remove_first P l).
Proof.
  intros Hdis. induction l as [|t l (IH1 & IH2 & IH3)]; [done|].
  destruct (P t) eqn:HP.
  - pose proof (Hdis t HP) as HQ.
    destruct (split_first_cons_true P t l HP) as [F1 R1].
    destruct (split_first_cons_false Q t l HQ) as [F2 R2].
    rewrite R1, R2, F2.
    destruct (split_first_cons_true P t (remove_first Q l) HP) as [F3 R3].
    by rewrite F3, R3, F1.
  - destruct (split_first_cons_false P t l HP) as [F1 R1]. rewrite R1, F1.
    destruct (Q t) eqn:HQ.
    + destruct (split_first_cons_true Q t l HQ) as [F2 R2]. rewrite R2, F2.
      destruct (split_first_cons_true Q t (remove_first P l) HQ) as [F3 R3].
      by rewrite F3, R3.
    + destruct (split_first_cons_false Q t l HQ) as [F2 R2]. rewrite R2, F2.
      destruct (split_first_cons_false P t (remove_first Q l) HP) as [F3 R3].
      destruct (split_first_cons_false Q t (remove_first P l) HQ) as [F4 R4].
      by rewrite F3, R3, F4, R4, IH1, IH2, IH3.
Qed.

Lemma getParamVal_first c params :
  getParamVal c params
  = Ret (match find_first (isFlagToken c) params with
         | Some tok => (true, drop 2 (c_str tok))
         | None => (false, [])
         end, remove_first (isFlagToken c) params).
Proof.
  rewrite getParamVal_split. unfold find_first, remove_first.
  by destruct (split_first _ params) as [[[a x] b]|].
Qed.

Lemma isFlagToken_letter c tok :
  isFlagToken c tok = true -> peek (c_str tok) 1 = c.
Proof. unfold isFlagToken. by intros [_ ?%N.eqb_eq]%andb_prop. Qed.

(** Look-ups of two different flag letters can be made in either order:
    each finds the same value, and the vector left is the same. *)
Theorem getParamVal_commute (c1 c2 : TCHAR) (params : ParamVector) :
  c1 <> c2 ->
  exists r1 r2 p1 p2 final,
    getParamVal c1 params = Ret (r1, p1)
    /\ getParamVal c2 p1 = Ret (r2, final)
    /\ getParamVal c2 params = Ret (r2, p2)
    /\ getParamVal c1 p2 = Ret (r1, final).
Proof.
  intros Hc.
  destruct (first_match_commute (isFlagToken c1) (isFlagToken c2) params)
    as (F1 & F2 & R).
  { intros t H1. apply not_true_is_false. intros H2.
    apply isFlagToken_letter in H1, H2. congruence. }
  exists (match find_first (isFlagToken c1) params with
          | Some tok => (true, drop 2 (c_str tok))
          | None => (false, [])
          end),
         (match find_first (isFlagToken c2) params with
          | Some tok => (true, drop 2 (c_str tok))
          | None => (false, [])
          end),
         (remove_first (isFlagToken c1) params),
         (remove_first (isFlagToken c2) params),
         (remove_first (isFlagToken c2) (remove_first (isFlagToken c1) params)).
  rewrite !getParamVal_first. repeat split.
  - by rewrite F2.
  - by rewrite F1, R.
Qed.

Lemma getParamVal_commute_witness :
  exists r1 r2 p1 p2 final,
    getParamVal 108%N [TEXT "-Lfr"; TEXT "a.txt"; TEXT "-lxml"] = Ret (r1, p1)
    /\ getParamVal 76%N p1 = Ret (r2, final)
    /\ getParamVal 76%N [TEXT "-Lfr"; TEXT "a.txt"; TEXT "-lxml"] = Ret (r2, p2)
    /\ getParamVal 108%N p2 = Ret (r1, final).
Proof.
  apply (getParamVal_commute 108%N 76%N [TEXT "-Lfr"; TEXT "a.txt"; TEXT "-lxml"]).
  discriminate.
Defined.

(** The language and the localization look-ups can be made in either order:
    the language, the path and the vector left are the same. *)
Theorem getLangType_getLocalizationPath_commute (LangType : Type)
    (L_EXTERNAL : LangType) (getLangIDFromStr : list TCHAR -> LangType)
    (getLocPathFromStr : list TCHAR -> wstring)
    (stringToLower : wstring -> wstring)
    (stringReplace : wstring -> list TCHAR -> list TCHAR -> wstring)
    (params : ParamVector) :
  (r <- getLangTypeFromParam LangType L_EXTERNAL getLangIDFromStr params ;;;
   r' <- getLocalizationPathFromParam getLocPathFromStr stringToLower
           stringReplace r.2 ;;;
   Ret (r.1, r'.1, r'.2))
  = (r' <- getLocalizationPathFromParam getLocPathFromStr stringToLower
             stringReplace params ;;;
     r <- getLangTypeFromParam LangType L_EXTERNAL getLangIDFromStr r'.2 ;;;
     Ret (r.1, r'.1, r.2)).
Proof.
  destruct (first_match_commute (isFlagToken 108%N) (isFlagToken 76%N) params)
    as (F1 & F2 & R).
  { intros t H1. apply not_true_is_false. intros H2.
    apply isFlagToken_letter in H1, H2. congruence. }
  unfold getLangTypeFromParam, getLocalizationPathFromParam.
  rewrite !getParamVal_first. cbn [bind].
  destruct (find_first (isFlagToken 108%N) params) as [tl|] eqn:El;
    destruct (find_first (isFlagToken 76%N) params) as [tL|] eqn:EL;
    cbn [negb bind fst snd]; rewrite !getParamVal_first; cbn [bind];
    rewrite ?F1, ?F2, ?El, ?EL; cbn [negb bind fst snd]; by rewrite R.
Qed.

(** ** The value is what follows the key *)

Lemma hasKeyPrefix_app str v :
  nul_free str -> nul_free v -> hasKeyPrefix str (str ++ v) = true.
Proof.
  intros Hs Hv. apply hasKeyPrefix_starts. exists v.
  rewrite c_str_app, !c_str_id by done. done.
Qed.

(** A token made of a key and a value gives the value back: the flag letter
    after the dash for [getParamVal], the prefix for [getParamValFromString]. *)
Theorem keyed_value_round_trip (letter : TCHAR) (str v : list TCHAR)
    (pre post : ParamVector) :
  letter <> ch_nul -> nul_free str -> nul_free v ->
  (no_match (isFlagToken letter) pre ->
   getParamVal letter (pre ++ (ch_dash :: letter :: v) :: post)
   = Ret (true, v, pre ++ post))
  /\ (no_match (hasKeyPrefix str) pre ->
      getParamValFromString str (pre ++ (str ++ v) :: post)
      = Ret (true, v, pre ++ post)).
Proof.
  intros Hl Hs Hv. split; intros Hpre.
  - rewrite getParamVal_split.
    rewrite (earliest_match_split_first _ _ pre (ch_dash :: letter :: v) post).
    + by rewrite !c_str_cons, c_str_id by done.
    + repeat split; [done|]. unfold isFlagToken, lstrlen, peek.
      rewrite !c_str_cons by done. simpl. by rewrite N.eqb_refl.
  - rewrite getParamValFromString_split.
    rewrite (earliest_match_split_first _ _ pre (str ++ v) post).
    + unfold lstrlen. rewrite c_str_app, !c_str_id by done.
      by rewrite drop_app_length.
    + repeat split; [done|]. by apply hasKeyPrefix_app.
Qed.

Lemma keyed_value_round_trip_witness :
  getParamValFromString (TEXT "-settingsDir=")
    ([TEXT "-multiInst"] ++ (TEXT "-settingsDir=" ++ TEXT "C:\my dir") :: [TEXT "a.txt"])
  = Ret (true, TEXT "C:\my dir", [TEXT "-multiInst"] ++ [TEXT "a.txt"]).
Proof.
  apply (keyed_value_round_trip 110%N (TEXT "-settingsDir=") (TEXT "C:\my dir")
           [TEXT "-multiInst"] [TEXT "a.txt"]).
  - discriminate.
  - repeat constructor; discriminate.
  - repeat constructor; discriminate.
  - repeat constructor.
Defined.

(** ** isInList without erasing *)

Lemma split_first_is_Some P l :
  is_Some (split_first P l) <-> exists tok, tok ∈ l /\ P tok = true.
Proof.
  split.
  - intros [[[a x] b] H]. apply split_first_Some in H as (-> & _ & Hx).
    exists x. split; [|done]. apply elem_of_app. right. by left.
  - intros (tok & Hin & Htok).
    destruct (split_first P l) as [r|] eqn:E; [by eexists|].
    apply split_first_None in E. unfold no_match in E.
    rewrite Forall_forall in E. apply E in Hin. congruence.
Qed.

(** [isInList] answers true exactly when some token equals the literal; with
    [eraseArg] false it answers the same and leaves the vector as it is. *)
Theorem isInList_membership (token2Find : list TCHAR) (params : ParamVector) :
  isInList token2Find params false = ((isInList token2Find params true).1, params)
  /\ ((isInList token2Find params true).1 = true
      <-> exists tok, tok ∈ params /\ c_str tok = c_str token2Find).
Proof.
  pose proof (isInListLoop_split token2Find false params []) as E.
  simpl in E. unfold isInList at 1. rewrite E, isInList_split.
  pose proof (split_first_is_Some (lstrcmp_is0 token2Find) params) as H.
  destruct (split_first _ params) as [[[a x] b]|]; simpl; split; try done.
  - split; [intros _|done]. destruct H as [H _].
    destruct H as (tok & Hin & Htok); [by eexists|].
    exists tok. split; [done|].
    unfold lstrcmp_is0 in Htok. by apply bool_decide_eq_true in Htok.
  - split; [done|]. intros (tok & Hin & Htok). destruct H as [_ H].
    destruct H as [? H]; [|done]. exists tok. split; [done|].
    unfold lstrcmp_is0. by apply bool_decide_eq_true.
Qed.

(** ** getEasterEggNameFromParam *)

Lemma getParamValFromString_first str params :
  getParamValFromString str params
  = Ret (match find_first (hasKeyPrefix str) params with
         | Some tok => (true, drop (lstrlen str) (c_str tok))
         | None => (false, [])
         end, remove_first (hasKeyPrefix str) params).
Proof.
  rewrite getParamValFromString_split. unfold find_first, remove_first.
  by destruct (split_first _ params) as [[[a x] b]|].
Qed.

Lemma earliest_match_first P params pre tok post :
  earliest_match P params pre tok post ->
  find_first P params = Some tok /\ remove_first P params = pre ++ post.
Proof.
  intros H%earliest_match_split_first. unfold find_first, remove_first.
  by rewrite H.
Qed.

Lemma no_match_first P params :
  no_match P params -> find_first P params = None /\ remove_first P params = params.
Proof.
  intros H%no_match_split_first. unfold find_first, remove_first. by rewrite H.
Qed.

Lemma size_t_sub_small a b :
  (b <= a)%N -> (a < 2 ^ 64)%N -> size_t_sub a b = (a - b)%N.
Proof.
  intros Hb Ha. unfold size_t_sub.
  rewrite Z.mod_small by (change (2 ^ 64)%N with (Z.to_N (2 ^ 64)) in Ha; lia).
  lia.
Qed.

Lemma isQuoteDelimited_nonempty name :
  isQuoteDelimited name = true -> (1 <= N.of_nat (length name))%N.
Proof.
  unfold isQuoteDelimited. destruct name as [|c name]; [done|].
  intros _. cbn [length]. lia.
Qed.

(** The stripping never throws: [substr] is called at position 1 of a string
    that holds its opening quote. *)
Lemma stripDelimitingQuotes_returns name :
  exists name', stripDelimitingQuotes name = Ret name'.
Proof.
  unfold stripDelimitingQuotes.
  destruct (isQuoteDelimited name) eqn:E; [|by eexists].
  apply isQuoteDelimited_nonempty in E. unfold substr.
  apply N.leb_le in E. rewrite E. by eexists.
Qed.

(** The look-ups of [-qn=], [-qt=] and [-qf=] are tried in this order,
    wherever the tokens stand: the first kind that is present gives the value
    and the [type] 0, 1 or 2, and only its earliest token is removed; with
    none of them the empty string is returned and [type] and the vector are
    left as they were. *)
Theorem getEasterEggNameFromParam_priority
    (relativeFilePathToFullFilePath : list TCHAR -> wstring)
    (params : ParamVector) (type : N) :
  (forall pre tok post,
      earliest_match (hasKeyPrefix (TEXT "-qn=")) params pre tok post ->
      getEasterEggNameFromParam relativeFilePathToFullFilePath params type
      = (name <- stripDelimitingQuotes (drop 4 (c_str tok)) ;;;
         Ret (name, 0%N, pre ++ post)))
  /\ (no_match (hasKeyPrefix (TEXT "-qn=")) params ->
      forall pre tok post,
      earliest_match (hasKeyPrefix (TEXT "-qt=")) params pre tok post ->
      getEasterEggNameFromParam relativeFilePathToFullFilePath params type
      = (name <- stripDelimitingQuotes (drop 4 (c_str tok)) ;;;
         Ret (name, 1%N, pre ++ post)))
  /\ (no_match (hasKeyPrefix (TEXT "-qn=")) params ->
      no_match (hasKeyPrefix (TEXT "-qt=")) params ->
      forall pre tok post,
      earliest_match (hasKeyPrefix (TEXT "-qf=")) params pre tok post ->
      getEasterEggNameFromParam relativeFilePathToFullFilePath params type
      = (name <- stripDelimitingQuotes (drop 4 (c_str tok)) ;;;
         Ret (relativeFilePathToFullFilePath (c_str name), 2%N, pre ++ post)))
  /\ (no_match (hasKeyPrefix (TEXT "-qn=")) params ->
      no_match (hasKeyPrefix (TEXT "-qt=")) params ->
      no_match (hasKeyPrefix (TEXT "-qf=")) params ->
      getEasterEggNameFromParam relativeFilePathToFullFilePath params type
      = Ret ([], type, params)).
Proof.
  unfold getEasterEggNameFromParam, findEasterEggName.
  rewrite getParamValFromString_first.
  change (lstrlen (TEXT "-qn=")) with 4. cbn [bind].
  repeat apply conj.
  - intros pre tok post [-> ->]%earliest_match_first. cbn [negb bind].
    by destruct (stripDelimitingQuotes _).
  - intros [-> ->]%no_match_first pre tok post [Ht Hr]%earliest_match_first.
    cbn [negb bind]. rewrite getParamValFromString_first, Ht, Hr.
    change (lstrlen (TEXT "-qt=")) with 4. cbn [negb bind].
    by destruct (stripDelimitingQuotes _).
  - intros [-> ->]%no_match_first [Ht Hr]%no_match_first
           pre tok post [Hf Hr']%earliest_match_first.
    cbn [negb bind]. rewrite getParamValFromString_first, Ht, Hr.
    cbn [negb bind]. rewrite getParamValFromString_first, Hf, Hr'.
    change (lstrlen (TEXT "-qf=")) with 4. cbn [negb bind].
    by destruct (stripDelimitingQuotes _).
  - intros [-> ->]%no_match_first [Ht Hr]%no_match_first [Hf Hr']%no_match_first.
    cbn [negb bind]. rewrite getParamValFromString_first, Ht, Hr.
    cbn [negb bind]. by rewrite getParamValFromString_first, Hf, Hr'.
Qed.

Lemma getEasterEggNameFromParam_priority_witness :
  getEasterEggNameFromParam (fun p => TEXT "C:\" ++ p)
    ([TEXT "-qf=f.txt"; TEXT "-qt=hello"] ++ TEXT "-qn=Bill" :: [TEXT "a.txt"]) 7%N
  = Ret (TEXT "Bill", 0%N, [TEXT "-qf=f.txt"; TEXT "-qt=hello"] ++ [TEXT "a.txt"]).
Proof.
  apply (proj1 (getEasterEggNameFromParam_priority (fun p => TEXT "C:\" ++ p)
                  ([TEXT "-qf=f.txt"; TEXT "-qt=hello"]
                     ++ TEXT "-qn=Bill" :: [TEXT "a.txt"]) 7%N)
               [TEXT "-qf=f.txt"; TEXT "-qt=hello"] (TEXT "-qn=Bill") [TEXT "a.txt"]).
  repeat split. repeat constructor.
Defined.

(** [getEasterEggNameFromParam] never throws. *)
Theorem getEasterEggNameFromParam_returns
    (relativeFilePathToFullFilePath : list TCHAR -> wstring)
    (params : ParamVector) (type : N) :
  exists r,
    getEasterEggNameFromParam relativeFilePathToFullFilePath params type = Ret r.
Proof.
  unfold getEasterEggNameFromParam, findEasterEggName.
  rewrite getParamValFromString_first. cbn [bind].
  destruct (find_first (hasKeyPrefix (TEXT "-qn=")) params) as [tn|];
    cbn [negb bind].
  { destruct (stripDelimitingQuotes_returns (drop (lstrlen (TEXT "-qn=")) (c_str tn)))
      as [n ->]. by eexists. }
  rewrite getParamValFromString_first. cbn [bind].
  destruct (find_first (hasKeyPrefix (TEXT "-qt=")) _) as [tt|];
    cbn [negb bind].
  { destruct (stripDelimitingQuotes_returns (drop (lstrlen (TEXT "-qt=")) (c_str tt)))
      as [n ->]. by eexists. }
  rewrite getParamValFromString_first. cbn [bind].
  destruct (find_first (hasKeyPrefix (TEXT "-qf=")) _) as [tf|];
    cbn [negb bind]; [|by eexists].
  destruct (stripDelimitingQuotes_returns (drop (lstrlen (TEXT "-qf=")) (c_str tf)))
    as [n ->]. by eexists.
Qed.

Lemma peek_last (v : list N) (c : N) : peek (v ++ [c]) (length v) = c.
Proof. apply peek_middle. Qed.

Lemma stripDelimitingQuotes_between (v : wstring) :
  nul_free v -> fits_size_t (ch_quote :: v ++ [ch_quote]) ->
  stripDelimitingQuotes (ch_quote :: v ++ [ch_quote]) = Ret v.
Proof.
  intros Hnul Hfit. unfold stripDelimitingQuotes, isQuoteDelimited.
  rewrite (c_str_id (ch_quote :: v ++ [ch_quote])).
  2:{ constructor; [done|]. apply Forall_app. split; [done|].
      by repeat constructor. }
  unfold fits_size_t in Hfit.
  cbn [length] in *. rewrite length_app in *. cbn [length] in *.
  rewrite !size_t_sub_small by lia.
  change (peek (ch_quote :: v ++ [ch_quote]) 0) with ch_quote. cbn [N.eqb Pos.eqb].
  replace (N.to_nat (N.of_nat (S (length v + 1)) - 1)) with (S (length v)) by lia.
  change (peek (ch_quote :: v ++ [ch_quote]) (S (length v)))
    with (peek (v ++ [ch_quote]) (length v)).
  rewrite peek_last. cbn [N.eqb Pos.eqb]. unfold substr.
  cbn [length]. rewrite length_app. cbn [length].
  replace (1 <=? N.of_nat (S (length v + 1)))%N with true
    by (symmetry; apply N.leb_le; lia).
  f_equal.
  replace (N.to_nat _) with (length v) by lia.
  change (drop (N.to_nat 1) (ch_quote :: v ++ [ch_quote])) with (v ++ [ch_quote]).
  apply take_app_length.
Qed.

(** A value between two quotes loses them, a lone quote gives the empty
    string, and a value that does not start with a quote or does not end with
    one is left as it is. *)
Theorem stripDelimitingQuotes_cases (name v : wstring) :
  nul_free name -> fits_size_t name ->
  (name = ch_quote :: v ++ [ch_quote] -> stripDelimitingQuotes name = Ret v)
  /\ (name = [ch_quote] -> stripDelimitingQuotes name = Ret [])
  /\ (head name <> Some ch_quote \/ last name <> Some ch_quote ->
      stripDelimitingQuotes name = Ret name).
Proof.
  intros Hnul Hfit. repeat apply conj.
  - intros ->. apply stripDelimitingQuotes_between; [|done].
    unfold nul_free in *. apply Forall_cons in Hnul as [_ Hnul].
    by apply Forall_app in Hnul as [Hnul _].
  - intros ->. reflexivity.
  - unfold stripDelimitingQuotes, isQuoteDelimited.
    rewrite (c_str_id name) by done.
    intros H. destruct name as [|c name]; [done|].
    change (peek (c :: name) 0) with c.
    destruct (N.eqb_spec c ch_quote) as [->|Hc]; [|done].
    destruct H as [H|H]; [done|].
    unfold fits_size_t in Hfit. cbn [length] in *.
    rewrite size_t_sub_small by lia.
    replace (N.to_nat (N.of_nat (S (length name)) - 1)) with (length name) by lia.
    destruct (N.eqb_spec (peek (ch_quote :: name) (length name)) ch_quote)
      as [E|E]; [|done].
    exfalso. apply H. rewrite last_lookup. cbn [length Nat.pred].
    by apply peek_nonzero.
Qed.

Lemma stripDelimitingQuotes_cases_witness :
  stripDelimitingQuotes (ch_quote :: TEXT "to be or not" ++ [ch_quote])
  = Ret (TEXT "to be or not").
Proof.
  apply (stripDelimitingQuotes_cases (ch_quote :: TEXT "to be or not" ++ [ch_quote])
           (TEXT "to be or not")).
  - repeat constructor; discriminate.
  - reflexivity.
  - reflexivity.
Defined.

(** ** The typing speed: what comes back *)

(** When [getGhostTypingSpeedFromParam] returns, the speed is -1, 1, 2 or 3,
    and the earliest token that starts with -qSpeed is gone from the vector
    whether its value was accepted or not. *)
Theorem getGhostTypingSpeedFromParam_range (params ps : ParamVector) (v : Z) :
  getGhostTypingSpeedFromParam params = Ret (v, ps) ->
  (v = (-1)%Z \/ (1 <= v <= 3)%Z)
  /\ ((no_match (hasKeyPrefix (TEXT "-qSpeed")) params /\ ps = params /\ v = (-1)%Z)
      \/ exists pre tok post,
           earliest_match (hasKeyPrefix (TEXT "-qSpeed")) params pre tok post
           /\ ps = pre ++ post).
Proof.
  intros Hret.
  destruct (getGhostTypingSpeedFromParam_cases params)
    as [(pre & tok & post & Hm & E)|[Hno E]]; rewrite Hret in E.
  - destruct (stoi (drop 7 (c_str tok))) as [speed|e]; [|done].
    injection E as -> ->. split; [|right; by exists pre, tok, post].
    destruct ((speed <=? 0) || (3 <? speed))%Z eqn:Hs; [by left|right].
    apply orb_false_elim in Hs as [H1%Z.leb_gt H2%Z.ltb_ge]. lia.
  - injection E as -> ->. split; [by left|by left].
Qed.

Lemma getGhostTypingSpeedFromParam_range_witness :
  (3 = (-1) \/ 1 <= 3 <= 3)%Z
  /\ ((no_match (hasKeyPrefix (TEXT "-qSpeed")) [TEXT "a.txt"; TEXT "-qSpeed3"]
       /\ [TEXT "a.txt"] = [TEXT "a.txt"; TEXT "-qSpeed3"] /\ 3%Z = (-1)%Z)
      \/ exists pre tok post,
           earliest_match (hasKeyPrefix (TEXT "-qSpeed"))
             [TEXT "a.txt"; TEXT "-qSpeed3"] pre tok post
           /\ [TEXT "a.txt"] = pre ++ post).
Proof.
  apply (getGhostTypingSpeedFromParam_range [TEXT "a.txt"; TEXT "-qSpeed3"]
           [TEXT "a.txt"] 3%Z).
  reflexivity.
Defined.

(** [getGhostTypingSpeedFromParam] throws exactly when the value of the
    earliest token that starts with -qSpeed makes [std::stoi] throw; without
    such a token it returns. *)
Theorem getGhostTypingSpeedFromParam_throws (params : ParamVector) (e : exn) :
  getGhostTypingSpeedFromParam params = Throw e
  <-> exists pre tok post,
        earliest_match (hasKeyPrefix (TEXT "-qSpeed")) params pre tok post
        /\ stoi (drop 7 (c_str tok)) = Throw e.
Proof.
  destruct (getGhostTypingSpeedFromParam_cases params)
    as [(pre & tok & post & Hm & E)|[Hno E]]; rewrite E; split.
  - intros H. exists pre, tok, post. split; [done|].
    destruct (stoi (drop 7 (c_str tok))); [done|]. by injection H as ->.
  - intros (pre' & tok' & post' & Hm' & Hs).
    apply earliest_match_split_first in Hm, Hm'. rewrite Hm in Hm'.
    injection Hm' as <- <- <-. by rewrite Hs.
  - done.
  - intros (pre & tok & post & Hm & _).
    apply earliest_match_split_first in Hm.
    apply no_match_split_first in Hno. congruence.
Qed.

(** ** The Normalizer, applied twice and followed by a look-up *)

Lemma convertParamsToNotepadStyle_map params :
  convertParamsToNotepadStyle params = map normalize_token params.
Proof. apply (convertLoop_map params []). Qed.

Lemma normalize_token_not_legacy tok :
  tokenIs "/p" (normalize_token tok) || tokenIs "/P" (normalize_token tok) = false.
Proof.
  unfold normalize_token.
  by destruct (tokenIs "/p" tok || tokenIs "/P" tok) eqn:E.
Qed.

(** After [convertParamsToNotepadStyle] no token is /p or /P, and a second
    pass changes nothing. *)
Theorem convertParamsToNotepadStyle_idempotent (params : ParamVector) :
  Forall (fun tok => tokenIs "/p" tok || tokenIs "/P" tok = false)
    (convertParamsToNotepadStyle params)
  /\ convertParamsToNotepadStyle (convertParamsToNotepadStyle params)
     = convertParamsToNotepadStyle params.
Proof.
  rewrite !convertParamsToNotepadStyle_map. split.
  - apply Forall_fmap, Forall_forall. intros tok _.
    apply normalize_token_not_legacy.
  - rewrite <- list_fmap_compose. apply list_fmap_ext. intros i tok _. simpl.
    unfold normalize_token at 1. by rewrite normalize_token_not_legacy.
Qed.

Lemma isInList_true_iff lit params :
  (isInList lit params true).1 = true
  <-> exists tok, tok ∈ params /\ c_str tok = c_str lit.
Proof.
  rewrite isInList_split.
  pose proof (split_first_is_Some (lstrcmp_is0 lit) params) as H.
  destruct (split_first _ params) as [[[a x] b]|]; simpl.
  - split; [intros _|done]. destruct H as [H _].
    destruct H as (tok & Hin & Htok); [by eexists|].
    exists tok. split; [done|].
    unfold lstrcmp_is0 in Htok. by apply bool_decide_eq_true in Htok.
  - split; [done|]. intros (tok & Hin & Htok). destruct H as [_ H].
    destruct H as [? H]; [|done]. exists tok. split; [done|].
    unfold lstrcmp_is0. by apply bool_decide_eq_true.
Qed.

(** After [convertParamsToNotepadStyle], the look-up of -quickPrint succeeds
    exactly when the vector held /p, /P or -quickPrint. *)
Theorem quickPrint_found_after_convert (params : ParamVector) :
  (isInList (TEXT "-quickPrint") (convertParamsToNotepadStyle params) true).1 = true
  <-> exists tok, tok ∈ params
        /\ (tokenIs "/p" tok = true \/ tokenIs "/P" tok = true
            \/ tokenIs "-quickPrint" tok = true).
Proof.
  rewrite isInList_true_iff, convertParamsToNotepadStyle_map. split.
  - intros (tok' & (tok & -> & Hin)%list_elem_of_fmap & E).
    exists tok. split; [done|]. unfold normalize_token in E.
    destruct (tokenIs "/p" tok) eqn:E1; [by left|].
    destruct (tokenIs "/P" tok) eqn:E2; [by right; left|].
    right; right. unfold tokenIs, lstrcmp_is0. by apply bool_decide_eq_true.
  - intros (tok & Hin & H). exists (normalize_token tok).
    split; [apply list_elem_of_fmap; by exists tok|].
    unfold normalize_token.
    destruct (tokenIs "/p" tok) eqn:E1; [done|].
    destruct (tokenIs "/P" tok) eqn:E2; [done|].
    destruct H as [H|[H|H]]; [done..|].
    unfold tokenIs, lstrcmp_is0 in H. by apply bool_decide_eq_true in H.
Qed.

(** ** The stripper: what is left *)

Lemma strip_spec_length n : forall l,
  length l <= n ->
  length (strip_spec l) <= length l
  /\ Forall (fun tok => tokenIs "-z" tok = false) (strip_spec l)
  /\ strip_spec l `sublist_of` l.
Proof.
  induction n as [|n IH]; intros l Hl.
  - destruct l; [|simpl in Hl; lia]. by repeat split.
  - destruct l as [|tok l]; [by repeat split|]. cbn [strip_spec].
    destruct (tokenIs "-z" tok) eqn:Hz.
    + destruct l as [|nxt l].
      * repeat split; [simpl; lia|constructor|apply sublist_nil_l].
      * destruct (IH l) as (H1 & H2 & H3); [simpl in Hl; lia|].
        repeat split; [simpl; lia|done|].
        by do 2 apply sublist_cons.
    + destruct (IH l) as (H1 & H2 & H3); [simpl in Hl; lia|].
      repeat split; [simpl; lia|by constructor|by apply sublist_skip].
Qed.

Lemma strip_spec_id l :
  Forall (fun tok => tokenIs "-z" tok = false) l -> strip_spec l = l.
Proof. induction 1 as [|tok l Hz _ IH]; simpl; [done|]. by rewrite Hz, IH. Qed.

Lemma strip_spec_fixed l :
  strip_spec l = l -> Forall (fun tok => tokenIs "-z" tok = false) l.
Proof.
  induction l as [|tok l IH]; [constructor|]. cbn [strip_spec].
  destruct (tokenIs "-z" tok) eqn:Hz.
  - intros E. exfalso. apply (f_equal length) in E.
    destruct l as [|nxt l]; [done|].
    destruct (strip_spec_length (length l) l) as (H & _); [done|].
    simpl in E. lia.
  - intros E. injection E as E. constructor; [done|by apply IH].
Qed.

Lemma stripIgnoredParams_spec params :
  stripIgnoredParams params = Some (strip_spec params).
Proof. apply (stripLoop_spec (length params) params []). lia. Qed.

(** [stripIgnoredParams] leaves no token -z, only drops tokens (the others
    keep their order), and a second pass changes nothing. *)
Theorem stripIgnoredParams_no_marker_left (params : ParamVector) :
  exists r,
    stripIgnoredParams params = Some r
    /\ Forall (fun tok => tokenIs "-z" tok = false) r
    /\ r `sublist_of` params
    /\ stripIgnoredParams r = Some r.
Proof.
  exists (strip_spec params).
  destruct (strip_spec_length (length params) params) as (_ & Hz & Hsub); [done|].
  rewrite !stripIgnoredParams_spec. repeat split; [done..|].
  by rewrite strip_spec_id.
Qed.

(** [stripIgnoredParams] leaves the vector as it is exactly when no token is
    -z. *)
Theorem stripIgnoredParams_unchanged_iff (params : ParamVector) :
  stripIgnoredParams params = Some params
  <-> Forall (fun tok => tokenIs "-z" tok = false) params.
Proof.
  rewrite stripIgnoredParams_spec. split.
  - intros E. injection E as E. by apply strip_spec_fixed.
  - intros H. by rewrite strip_spec_id.
Qed.

(** ** The pointers of the scan and the quoting flags *)

Lemma Forall_le_S (a : list nat) i :
  Forall (fun p => p <= i) a -> Forall (fun p => p <= S i) a.
Proof. intros H. eapply Forall_impl; [exact H|]. intros p ?. simpl in *. lia. Qed.

Lemma Forall_le_lt_S (a : list nat) i :
  Forall (fun p => p <= i) a -> Forall (fun p => p < S i) a.
Proof. intros H. eapply Forall_impl; [exact H|]. intros p ?. simpl in *. lia. Qed.

Lemma sorted_snoc (a : list nat) i x :
  StronglySorted lt a -> Forall (fun p => p < i) a -> i <= x ->
  StronglySorted lt (a ++ [x]).
Proof.
  intros Hs Hlt Hx. apply StronglySorted_app_2; [|done|repeat constructor].
  intros p y Hp ->%list_elem_of_singleton.
  rewrite Forall_forall in Hlt. apply Hlt in Hp. lia.
Qed.

Lemma Forall_snoc_le (a : list nat) i x :
  Forall (fun p => p <= i) a -> x <= S i -> Forall (fun p => p <= S i) (a ++ [x]).
Proof.
  intros Ha Hx. apply Forall_app. split; [by apply Forall_le_S|].
  constructor; [done|constructor].
Qed.

Lemma scan_inv_step i s : scan_inv i s -> scan_inv (S i) (parseStep i s).
Proof.
  destruct s as [buf b st w z t a]. unfold scan_inv. cbn [args
    isBetweenFileNameQuotes isStringInArg].
  intros (Hs & Hle & Hlt & Hq).
  pose proof (Forall_le_S a i Hle) as Hle'.
  pose proof (Forall_le_lt_S a i Hle) as Hlt'.
  destruct b, st; try done; unfold parseStep, onQuote, onWhiteSpace, onOther;
    cbn [cmdLine args isBetweenFileNameQuotes isStringInArg isInWhiteSpace
         zArg shouldBeTerminated negb andb];
    repeat match goal with
           | |- context [if ?c then _ else _] => destruct c
           end;
    cbn [args isBetweenFileNameQuotes isStringInArg andb];
    try (repeat split; done).
  (* what is left: a quote opens a quoted filename, or a token starts *)
  all: specialize (Hlt eq_refl); repeat split; try done;
    try (apply (sorted_snoc a i _); [done|done|lia]);
    try (apply Forall_snoc_le; [done|lia]);
    try (intros _; apply Forall_app; split; [done|];
         constructor; [lia|constructor]).
Qed.

Lemma scan_inv_final raw :
  exists k, k <= length (c_str raw) /\ scan_inv k (parseFinal raw).
Proof.
  unfold parseFinal. rewrite lstrlen_lstrcpy.
  destruct (parseLoop_invariant (length (c_str raw)) scan_inv)
    with (n := length (c_str raw)) (i := 0) (s := initParseState (lstrcpy raw))
    as (k & Hk & Hinv & _).
  - intros i s _ _. apply scan_inv_step.
  - lia.
  - repeat split; constructor.
  - by exists k.
Qed.

Lemma c_str_of_cells (b o : list N) :
  (forall j, b !! j = o !! j \/ b !! j = Some ch_nul) ->
  c_str b = take (length (c_str b)) o.
Proof.
  revert o. induction b as [|c b IH]; intros o H; [done|].
  cbn [c_str]. destruct (N.eqb_spec c ch_nul) as [->|Hc]; [done|].
  destruct (H 0) as [E|E]; simpl in E; [|congruence].
  destruct o as [|c' o]; [done|]. injection E as <-.
  cbn [length take]. f_equal. apply IH. intros j. apply (H (S j)).
Qed.

Lemma parseFinal_cells raw j :
  cmdLine (parseFinal raw) !! j = c_str raw !! j
  \/ cmdLine (parseFinal raw) !! j = Some ch_nul.
Proof.
  unfold parseFinal.
  destruct (parseLoop_cmdLine_cells (lstrlen (lstrcpy raw)) 0
              (initParseState (lstrcpy raw)) j) as [E|E]; [|by right].
  rewrite E. cbn [cmdLine initParseState]. unfold lstrcpy.
  destruct (decide (j < length (c_str raw))) as [Hj|Hj].
  - left. by rewrite lookup_app_l.
  - rewrite lookup_app_r by lia.
    destruct (j - length (c_str raw)) as [|m] eqn:Em; simpl; [by right|].
    left. rewrite lookup_nil. symmetry. apply lookup_ge_None_2. lia.
Qed.

(** The tokens are pieces of the command line: each one is the run of
    characters that starts at its pointer, the pointers are strictly
    increasing positions of the command line, and there is one token for each
    pointer. *)
Theorem tokens_are_substrings_in_order (raw : list TCHAR)
    (paramVector : ParamVector) :
  exists ps : list nat,
    StronglySorted lt ps
    /\ Forall2 (fun p tok => p <= length (c_str raw)
                             /\ tok = take (length tok) (drop p (c_str raw)))
         ps (parseCommandLine (Some raw) paramVector).
Proof.
  exists (args (parseFinal raw)).
  destruct (scan_inv_final raw) as (k & Hk & Hs & Hle & _ & _).
  split; [done|]. cbn [parseCommandLine]. unfold argsToParams.
  apply Forall2_fmap_r, Forall_Forall2_diag.
  rewrite Forall_forall in *. intros p Hp. split; [apply Hle in Hp; lia|].
  unfold str_at. apply c_str_of_cells. intros j.
  rewrite !lookup_drop. apply parseFinal_cells.
Qed.

(** At every position of the scan at most one of the two quoting contexts
    is open. *)
Theorem one_quoting_context_at_a_time (raw : list TCHAR) (k : nat) :
  isBetweenFileNameQuotes (parseStateAt raw k)
  && isStringInArg (parseStateAt raw k) = false.
Proof.
  unfold parseStateAt.
  destruct (parseLoop_invariant k scan_inv)
    with (n := k) (i := 0) (s := initParseState (lstrcpy raw))
    as (j & _ & (_ & _ & _ & Hq) & _).
  - intros i s _ _. apply scan_inv_step.
  - lia.
  - repeat split; constructor.
  - done.
Qed.

(** ** Verbatim capture *)

Lemma capture_inv_step buf0 i s :
  shouldBeTerminated s = false ->
  capture_inv buf0 i s -> capture_inv buf0 (S i) (parseStep i s).
Proof.
  intros Ht [Hbuf _]. split.
  - intros j Hj. rewrite <- Hbuf by lia.
    destruct (parseStep_cmdLine i s) as [-> | ->]; [done|].
    apply list_lookup_insert_ne. lia.
  - destruct s as [buf b st w z t a]. cbn [shouldBeTerminated cmdLine] in *.
    subst t. unfold parseStep, onQuote, onWhiteSpace, onOther.
    cbn [cmdLine args isBetweenFileNameQuotes isStringInArg isInWhiteSpace
         zArg shouldBeTerminated].
    repeat match goal with
           | |- context [if ?c then _ else _] => destruct c
           end;
      cbn [shouldBeTerminated args cmdLine]; try done.
    intros _. exists a, i. repeat split. intros j Hj. by apply Hbuf.
Qed.

(** When the scan ends in verbatim capture, the last token is the command
    line from the position where that token starts to its end, white space
    and quotes included. *)
Theorem verbatim_capture_keeps_the_rest (raw : list TCHAR)
    (paramVector : ParamVector) :
  shouldBeTerminated (parseFinal raw) = true ->
  exists toks p,
    p < length (c_str raw)
    /\ parseCommandLine (Some raw) paramVector = toks ++ [drop p (c_str raw)].
Proof.
  intros Hend. unfold parseFinal in Hend. rewrite lstrlen_lstrcpy in Hend.
  destruct (parseLoop_invariant (length (c_str raw)) (capture_inv (lstrcpy raw)))
    with (n := length (c_str raw)) (i := 0) (s := initParseState (lstrcpy raw))
    as (k & Hk & [_ Hcap] & _).
  - intros i s _ Ht. by apply capture_inv_step.
  - lia.
  - split; [done|]. by intros [=].
  - destruct (Hcap Hend) as (front & p & Hargs & Hp & Hbuf).
    cbn [parseCommandLine]. unfold parseFinal, argsToParams.
    rewrite lstrlen_lstrcpy, Hargs, map_app. cbn [map].
    eexists _, p. split; [lia|]. f_equal. f_equal.
    set (final := parseLoop _ 0 _) in *. unfold str_at.
    assert (drop p (cmdLine final) = drop p (lstrcpy raw)) as ->.
    { apply list_eq. intros j. rewrite !lookup_drop. apply Hbuf. lia. }
    unfold lstrcpy. rewrite drop_app_le by lia.
    rewrite c_str_app by (apply Forall_drop, c_str_nul_free).
    simpl. by rewrite app_nil_r.
Qed.

Lemma verbatim_capture_keeps_the_rest_witness :
  exists toks p,
    p < length (c_str (TEXT "-z -z my file" ++ [ch_quote] ++ TEXT " x"))
    /\ parseCommandLine (Some (TEXT "-z -z my file" ++ [ch_quote] ++ TEXT " x")) []
       = toks ++ [drop p (c_str (TEXT "-z -z my file" ++ [ch_quote] ++ TEXT " x"))].
Proof.
  apply (verbatim_capture_keeps_the_rest
           (TEXT "-z -z my file" ++ [ch_quote] ++ TEXT " x") []).
  reflexivity.
Defined.

(** ** Quoted filenames *)

Lemma parseStep_length i s :
  length (cmdLine (parseStep i s)) = length (cmdLine s).
Proof.
  destruct (parseStep_cmdLine i s) as [-> | ->]; [done|apply length_insert].
Qed.

Lemma parseLoop_length n i s :
  length (cmdLine (parseLoop n i s)) = length (cmdLine s).
Proof.
  revert i s. induction n as [|n IH]; intros i s; simpl; [done|].
  destruct (shouldBeTerminated s); [done|]. by rewrite IH, parseStep_length.
Qed.

Lemma parseLoop_take n i s :
  take i (cmdLine (parseLoop n i s)) = take i (cmdLine s).
Proof.
  apply list_eq. intros j. destruct (decide (j < i)) as [Hj|Hj].
  - rewrite !lookup_take_lt by done. apply parseLoop_cmdLine_lookup. by left.
  - rewrite !lookup_take_ge by lia. done.
Qed.

(** The buffer before the iteration of index [i]: some cells, then the
    command line from [i] on as it was copied. *)
Lemma parseStateAt_buffer raw i :
  i <= length (c_str raw) ->
  exists d, length d = i
    /\ cmdLine (parseStateAt raw i) = d ++ drop i (lstrcpy raw)
    /\ forall j, d !! j = c_str raw !! j \/ d !! j = Some ch_nul \/ d !! j = None.
Proof.
  intros Hi. exists (take i (cmdLine (parseStateAt raw i))).
  assert (length (cmdLine (parseStateAt raw i)) = S (length (c_str raw))) as Hlen.
  { unfold parseStateAt. rewrite parseLoop_length. cbn [cmdLine initParseState].
    unfold lstrcpy. rewrite length_app. simpl. lia. }
  repeat split.
  - rewrite length_take. lia.
  - rewrite <- (take_drop i (cmdLine (parseStateAt raw i))) at 1. f_equal.
    apply list_eq. intros j. rewrite !lookup_drop. unfold parseStateAt.
    rewrite parseLoop_cmdLine_lookup by lia. done.
  - intros j. destruct (decide (j < i)) as [Hj|Hj].
    + rewrite lookup_take_lt by done. unfold parseStateAt.
      destruct (parseLoop_cmdLine_cells i 0 (initParseState (lstrcpy raw)) j)
        as [E|E]; [left|by right; left].
      rewrite E. cbn [cmdLine initParseState]. unfold lstrcpy.
      by rewrite lookup_app_l by lia.
    + right; right. by rewrite lookup_take_ge by lia.
Qed.

Lemma parseStep_opening_quote d rest w z a :
  (0 <? length d) && (peek (d ++ ch_quote :: rest) (length d - 1) =? ch_equals)%N
    = false ->
  parseStep (length d)
    (mkParseState (d ++ ch_quote :: rest) false false w z false a)
  = mkParseState (d ++ ch_nul :: rest) true false false
      (if (z =? 1)%Z then (z + 1)%Z else z) false (a ++ [length d + 1]).
Proof.
  intros Hno. unfold parseStep. cbn [cmdLine]. rewrite peek_middle.
  cbn [N.eqb Pos.eqb]. unfold onQuote.
  cbn [cmdLine isStringInArg isBetweenFileNameQuotes zArg shouldBeTerminated
       args negb andb].
  rewrite Hno. by rewrite insert_middle.
Qed.

Lemma str_at_after d X tail :
  nul_free X -> str_at ((d ++ X ++ [ch_nul]) ++ tail) (length d) = X.
Proof.
  intros HX. unfold str_at. rewrite <- !app_assoc, drop_app_length.
  rewrite c_str_app by done. simpl. by rewrite app_nil_r.
Qed.

(** From an opening quote over the filename [X] and its closing quote, and
    [n] more iterations: the pointer pushed at the opening quote reads [X]. *)
Lemma parseLoop_quoted_filename d X tail w z a n :
  Forall (fun c => c <> ch_quote) X -> nul_free X ->
  (0 <? length d)
    && (peek (d ++ ch_quote :: X ++ ch_quote :: tail) (length d - 1) =? ch_equals)%N
    = false ->
  exists final front back,
    parseLoop (1 + (length X + (1 + n))) (length d)
      (mkParseState (d ++ ch_quote :: X ++ ch_quote :: tail) false false w z false a)
    = final
    /\ args final = front ++ [length d + 1] ++ back
    /\ front = a
    /\ str_at (cmdLine final) (length d + 1) = X.
Proof.
  intros HXq HX Hno.
  rewrite (parseLoop_app 1). cbn [parseLoop shouldBeTerminated].
  rewrite parseStep_opening_quote by done.
  rewrite (parseLoop_app (length X)).
  destruct (parseLoop_in_quotes X HXq (d ++ [ch_nul]) (ch_quote :: tail) false
              (if (z =? 1)%Z then (z + 1)%Z else z) (a ++ [length d + 1]))
    as [w' E].
  rewrite length_app, Nat.add_1_r, snoc_app in E.
  replace (length d + 1) with (S (length d)) in * by lia. rewrite E. clear E.
  rewrite (parseLoop_app 1). cbn [parseLoop shouldBeTerminated].
  replace (d ++ ch_nul :: X ++ ch_quote :: tail)
    with ((d ++ ch_nul :: X) ++ ch_quote :: tail)
    by (by rewrite <- app_assoc).
  replace (S (length d) + length X) with (length (d ++ ch_nul :: X))
    by (rewrite length_app; simpl; lia).
  rewrite parseStep_closing_quote.
  set (s3 := mkParseState _ false false false _ false _).
  set (m := length (d ++ ch_nul :: X) + 1).
  destruct (parseLoop_args n m s3) as [back Hback].
  pose proof (parseLoop_take n m s3) as Htake.
  exists (parseLoop n m s3), a, back.
  set (final := parseLoop n m s3) in *.
  repeat split.
  - rewrite Hback. unfold s3. cbn [args]. by rewrite <- app_assoc.
  - rewrite <- (take_drop m (cmdLine final)), Htake. unfold s3. cbn [cmdLine].
    replace ((d ++ ch_nul :: X) ++ ch_nul :: tail)
      with (((d ++ [ch_nul]) ++ X ++ [ch_nul]) ++ tail)
      by (by rewrite <- !app_assoc).
    rewrite take_app_length'
      by (unfold m; rewrite !length_app; simpl; lia).
    replace (S (length d)) with (length (d ++ [ch_nul]))
      by (rewrite length_app; simpl; lia).
    by apply str_at_after.
Qed.

Lemma opens_filename_quote_cond raw i d :
  opens_filename_quote raw i ->
  length d = i ->
  (forall j, d !! j = c_str raw !! j \/ d !! j = Some ch_nul \/ d !! j = None) ->
  forall rest, (0 <? length d) && (peek (d ++ rest) (length d - 1) =? ch_equals)%N
               = false.
Proof.
  intros (_ & _ & _ & _ & Hprev) Hd Hcells rest.
  destruct d as [|c d]; [done|]. cbn [Nat.ltb Nat.leb andb length].
  replace (S (length d) - 1) with (length d) by lia.
  apply N.eqb_neq. intros He. apply peek_nonzero in He; [|done].
  rewrite lookup_app_l in He by (simpl; lia).
  destruct Hprev as [Hz|Hprev]; [simpl in Hd; lia|].
  apply Hprev. replace (i - 1) with (length d) by (simpl in Hd; lia).
  destruct (Hcells (length d)) as [E|[E|E]]; congruence.
Qed.

(** A quoted filename is one token, white space included and quotes left
    out. *)
Theorem quoted_filename_is_one_token (raw pre X post : list TCHAR)
    (paramVector : ParamVector) :
  c_str raw = pre ++ [ch_quote] ++ X ++ [ch_quote] ++ post ->
  opens_filename_quote raw (length pre) ->
  Forall (fun c => c <> ch_quote) X ->
  X ∈ parseCommandLine (Some raw) paramVector.
Proof.
  intros Hraw Hopen HXq.
  assert (nul_free X) as HX.
  { pose proof (c_str_nul_free raw) as H. rewrite Hraw in H.
    unfold nul_free in *. rewrite !Forall_app in H. tauto. }
  destruct (parseStateAt_buffer raw (length pre)) as (d & Hd & Hbuf & Hcells).
  { rewrite Hraw, length_app. lia. }
  pose proof (opens_filename_quote_cond raw (length pre) d Hopen Hd Hcells) as Hno.
  destruct Hopen as (_ & Ht & Hs & Hb & _).
  cbn [parseCommandLine]. unfold parseFinal. rewrite lstrlen_lstrcpy.
  replace (length (c_str raw))
    with (length pre + (1 + (length X + (1 + length post))))
    by (rewrite Hraw, !length_app; simpl; lia).
  rewrite parseLoop_app. fold (parseStateAt raw (length pre)).
  rewrite Nat.add_0_l.
  destruct (parseStateAt raw (length pre)) as [buf b st w z t a].
  cbn [cmdLine shouldBeTerminated isStringInArg isBetweenFileNameQuotes] in *.
  subst buf b st t. unfold lstrcpy. rewrite Hraw, <- !app_assoc.
  rewrite drop_app_length. cbn [app]. rewrite <- Hd.
  destruct (parseLoop_quoted_filename d X (post ++ [ch_nul]) w z a (length post)
              HXq HX (Hno _)) as (final & front & back & -> & Hargs & _ & Hstr).
  unfold argsToParams. apply list_elem_of_fmap. exists (length d + 1).
  split; [done|]. rewrite Hargs, !elem_of_app. right; left. by left.
Qed.

Lemma quoted_filename_is_one_token_witness :
  TEXT "my file.txt" ∈
    parseCommandLine
      (Some (TEXT "-ro " ++ [ch_quote] ++ TEXT "my file.txt" ++ [ch_quote]
             ++ TEXT " b.txt")) [].
Proof.
  apply (quoted_filename_is_one_token _ (TEXT "-ro ") (TEXT "my file.txt")
           (TEXT " b.txt")).
  - reflexivity.
  - repeat split; try reflexivity. right. discriminate.
  - repeat constructor; discriminate.
Defined.

(** A quote that is never closed: the token runs to the end of the command
    line and is the last one. *)
Theorem unterminated_quote_runs_to_end (raw pre X : list TCHAR)
    (paramVector : ParamVector) :
  c_str raw = pre ++ [ch_quote] ++ X ->
  opens_filename_quote raw (length pre) ->
  Forall (fun c => c <> ch_quote) X ->
  exists toks, parseCommandLine (Some raw) paramVector = toks ++ [X].
Proof.
  intros Hraw Hopen HXq.
  assert (nul_free X) as HX.
  { pose proof (c_str_nul_free raw) as H. rewrite Hraw in H.
    unfold nul_free in *. rewrite !Forall_app in H. tauto. }
  destruct (parseStateAt_buffer raw (length pre)) as (d & Hd & Hbuf & Hcells).
  { rewrite Hraw, length_app. lia. }
  pose proof (opens_filename_quote_cond raw (length pre) d Hopen Hd Hcells) as Hno.
  destruct Hopen as (_ & Ht & Hs & Hb & _).
  cbn [parseCommandLine]. unfold parseFinal. rewrite lstrlen_lstrcpy.
  replace (length (c_str raw)) with (length pre + (1 + length X))
    by (rewrite Hraw, !length_app; simpl; lia).
  rewrite parseLoop_app. fold (parseStateAt raw (length pre)).
  rewrite Nat.add_0_l.
  destruct (parseStateAt raw (length pre)) as [buf b st w z t a].
  cbn [cmdLine shouldBeTerminated isStringInArg isBetweenFileNameQuotes] in *.
  subst buf b st t. unfold lstrcpy. rewrite Hraw, <- !app_assoc.
  rewrite drop_app_length. cbn [app]. rewrite <- Hd.
  rewrite (parseLoop_app 1). cbn [parseLoop shouldBeTerminated].
  rewrite parseStep_opening_quote by done.
  destruct (parseLoop_in_quotes X HXq (d ++ [ch_nul]) [ch_nul] false
              (if (z =? 1)%Z then (z + 1)%Z else z) (a ++ [length d + 1]))
    as [w' E].
  rewrite length_app, Nat.add_1_r, snoc_app in E.
  replace (length d + 1) with (S (length d)) in * by lia. rewrite E.
  unfold argsToParams. cbn [cmdLine args]. rewrite map_app. cbn [map].
  eexists. f_equal. f_equal.
  replace (d ++ ch_nul :: X ++ [ch_nul]) with ((d ++ [ch_nul]) ++ X ++ [ch_nul])
    by (by rewrite <- app_assoc).
  rewrite <- (app_nil_r ((d ++ [ch_nul]) ++ X ++ [ch_nul])).
  replace (S (length d)) with (length (d ++ [ch_nul]))
    by (rewrite length_app; simpl; lia).
  by apply str_at_after.
Qed.

Lemma unterminated_quote_runs_to_end_witness :
  exists toks,
    parseCommandLine (Some (TEXT "-ro " ++ [ch_quote] ++ TEXT "my file.txt -n3")) []
    = toks ++ [TEXT "my file.txt -n3"].
Proof.
  apply (unterminated_quote_runs_to_end _ (TEXT "-ro ") (TEXT "my file.txt -n3")).
  - reflexivity.
  - repeat split; try reflexivity. right. discriminate.
  - repeat constructor; discriminate.
Defined.

(** ** Equals-quoted strings *)

Lemma parseLoop_in_string X :
  Forall (fun c => c <> ch_quote) X ->
  forall (done rest : list TCHAR) (w : bool) (z : Z) (a : list nat),
  exists w',
    parseLoop (length X) (length done)
      (mkParseState (done ++ X ++ rest) false true w z false a)
    = mkParseState (done ++ X ++ rest) false true w' z false a.
Proof.
  induction 1 as [|c X Hc _ IH]; intros done rest w z a.
  - by exists w.
  - cbn [parseLoop length shouldBeTerminated app].
    assert (exists w1, parseStep (length done)
              (mkParseState (done ++ c :: X ++ rest) false true w z false a)
            = mkParseState (done ++ c :: X ++ rest) false true w1 z false a)
      as [w1 ->].
    { unfold parseStep. cbn [cmdLine]. rewrite peek_middle.
      apply N.eqb_neq in Hc. rewrite Hc.
      destruct ((c =? ch_tab)%N || (c =? ch_space)%N); by eexists. }
    destruct (IH (done ++ [c]) rest w1 z a) as [w' E].
    rewrite length_app, Nat.add_1_r, snoc_app in E. by exists w'.
Qed.

Lemma parseLoop_inside_word K :
  Forall (fun c => plain_char c /\ is_ws c = false) K ->
  forall (done rest : list TCHAR) (z : Z) (a : list nat),
  parseLoop (length K) (length done)
    (mkParseState (done ++ K ++ rest) false false false z false a)
  = mkParseState (done ++ K ++ rest) false false false z false a.
Proof.
  induction 1 as [|c K [[Hc0 Hcq] Hcw] _ IH]; intros dn rest z a; [done|].
  cbn [parseLoop length shouldBeTerminated app].
  rewrite parseStep_other by done.
  specialize (IH (dn ++ [c]) rest z a).
  by rewrite length_app, Nat.add_1_r, snoc_app in IH.
Qed.

(** A word that ends with the equals sign, followed by a string in quotes:
    the scan comes back to the state it had inside the word, and the buffer is
    untouched. *)
Lemma parseLoop_equals_quoted K V :
  Forall (fun c => plain_char c /\ is_ws c = false) K ->
  Forall (fun c => c <> ch_quote) V ->
  forall (dn rest : list TCHAR) (z : Z) (a : list nat),
  parseLoop (length K + (1 + (1 + (length V + 1)))) (length dn)
    (mkParseState (dn ++ K ++ [ch_equals; ch_quote] ++ V ++ ch_quote :: rest)
       false false false z false a)
  = mkParseState (dn ++ K ++ [ch_equals; ch_quote] ++ V ++ ch_quote :: rest)
      false false false z false a.
Proof.
  intros HK HV dn rest z a.
  rewrite parseLoop_app, parseLoop_inside_word by done.
  (* the equals sign *)
  rewrite parseLoop_app, (parseLoop_S 0) by done. cbn [parseLoop].
  set (d1 := dn ++ K).
  replace (length dn + length K) with (length d1)
    by (unfold d1; by rewrite length_app).
  replace (dn ++ K ++ [ch_equals; ch_quote] ++ V ++ ch_quote :: rest)
    with (d1 ++ ch_equals :: (ch_quote :: V ++ ch_quote :: rest))
    by (unfold d1; by rewrite <- app_assoc).
  rewrite parseStep_other by done.
  (* the quote after it *)
  rewrite parseLoop_app, (parseLoop_S 0) by done. cbn [parseLoop].
  set (d2 := d1 ++ [ch_equals]).
  replace (length d1 + 1) with (length d2)
    by (unfold d2; rewrite length_app; simpl; lia).
  replace (d1 ++ ch_equals :: ch_quote :: V ++ ch_quote :: rest)
    with (d2 ++ ch_quote :: (V ++ ch_quote :: rest))
    by (unfold d2; by rewrite <- app_assoc).
  assert (parseStep (length d2)
            (mkParseState (d2 ++ ch_quote :: V ++ ch_quote :: rest)
               false false false z false a)
          = mkParseState (d2 ++ ch_quote :: V ++ ch_quote :: rest)
              false true false z false a) as ->.
  { unfold parseStep. cbn [cmdLine]. rewrite peek_middle. cbn [N.eqb Pos.eqb].
    unfold onQuote.
    cbn [cmdLine isStringInArg isBetweenFileNameQuotes negb andb].
    assert (peek (d2 ++ ch_quote :: V ++ ch_quote :: rest) (length d2 - 1)
            = ch_equals) as ->.
    { unfold d2. rewrite length_app. cbn [length].
      replace (length d1 + 1 - 1) with (length d1) by lia.
      rewrite <- app_assoc. apply peek_middle. }
    replace (0 <? length d2) with true; [done|].
    symmetry. apply Nat.ltb_lt. unfold d2. rewrite length_app. simpl. lia. }
  (* the string and its closing quote *)
  rewrite parseLoop_app.
  set (d3 := d2 ++ [ch_quote]).
  replace (length d2 + 1) with (length d3)
    by (unfold d3; rewrite length_app; simpl; lia).
  replace (d2 ++ ch_quote :: V ++ ch_quote :: rest)
    with (d3 ++ V ++ ch_quote :: rest)
    by (unfold d3; by rewrite <- app_assoc).
  destruct (parseLoop_in_string V HV d3 (ch_quote :: rest) false z a) as [w' E].
  rewrite E. clear E. rewrite (parseLoop_S 0) by done. cbn [parseLoop].
  replace (d3 ++ V ++ ch_quote :: rest) with ((d3 ++ V) ++ ch_quote :: rest)
    by (by rewrite <- app_assoc).
  replace (length d3 + length V) with (length (d3 ++ V))
    by (by rewrite length_app).
  unfold parseStep. cbn [cmdLine]. rewrite peek_middle. cbn [N.eqb Pos.eqb].
  unfold onQuote. by cbn.
Qed.

(** A key that ends with the equals sign followed by a value in quotes, alone
    on the command line, is one token: the white space of the value is kept,
    and so are its two quotes. *)
Lemma parse_equals_quoted k0 K V paramVector :
  plain_char k0 -> is_ws k0 = false ->
  Forall (fun c => plain_char c /\ is_ws c = false) K ->
  Forall (fun c => c <> ch_nul /\ c <> ch_quote) V ->
  parseCommandLine (Some (k0 :: K ++ [ch_equals; ch_quote] ++ V ++ [ch_quote]))
    paramVector
  = [k0 :: K ++ [ch_equals; ch_quote] ++ V ++ [ch_quote]].
Proof.
  intros [Hk0 Hkq] Hkw HK HV.
  assert (Forall (fun c => c <> ch_quote) V) as HVq.
  { eapply Forall_impl; [exact HV|]. by intros c [_ ?]. }
  set (raw := k0 :: K ++ [ch_equals; ch_quote] ++ V ++ [ch_quote]).
  assert (nul_free raw) as Hraw.
  { unfold raw, nul_free. constructor; [done|].
    rewrite !Forall_app. repeat split.
    - eapply Forall_impl; [exact HK|]. by intros c [[? _] _].
    - by repeat constructor.
    - eapply Forall_impl; [exact HV|]. by intros c [? _].
    - by repeat constructor. }
  cbn [parseCommandLine]. unfold parseFinal.
  rewrite lstrlen_lstrcpy. unfold lstrcpy. rewrite (c_str_id raw) by done.
  replace (length raw) with (1 + (length K + (1 + (1 + (length V + 1)))))
    by (unfold raw; cbn [length]; rewrite !length_app; simpl; lia).
  rewrite (parseLoop_app 1). cbn [parseLoop shouldBeTerminated initParseState].
  unfold raw. cbn [app].
  pose proof (parseStep_other [] k0
    (K ++ ch_equals :: ch_quote :: V ++ [ch_quote] ++ [ch_nul]) true 0%Z []
    Hkw Hkq) as E.
  cbn [app length Z.eqb] in E.
  replace ((K ++ ch_equals :: ch_quote :: V ++ [ch_quote]) ++ [ch_nul])
    with (K ++ ch_equals :: ch_quote :: V ++ [ch_quote] ++ [ch_nul])
    by (rewrite <- app_assoc; cbn [app]; by rewrite <- app_assoc).
  unfold initParseState. cbn [app]. rewrite E. clear E.
  pose proof (parseLoop_equals_quoted K V HK HVq [k0] [ch_nul] 0%Z [0]) as E.
  cbn [app length Nat.add] in E |- *. rewrite E.
  unfold argsToParams, str_at. cbn [cmdLine args map drop].
  f_equal.
  assert (k0 :: K ++ ch_equals :: ch_quote :: V ++ [ch_quote; ch_nul]
          = raw ++ [ch_nul]) as ->.
  { unfold raw. cbn [app]. f_equal. rewrite <- app_assoc. cbn [app].
    do 3 f_equal. by rewrite <- app_assoc. }
  rewrite c_str_app by done. simpl. by rewrite app_nil_r.
Qed.

(** The same from the command line to the value: the token is the key with
    the quoted value, and the look-up of the key gives back the value with its
    white space and with its two quotes, leaving the vector empty. *)
Theorem equals_quoted_value_is_one_token (k0 : TCHAR) (K V : list TCHAR)
    (paramVector : ParamVector) :
  plain_char k0 -> is_ws k0 = false ->
  Forall (fun c => plain_char c /\ is_ws c = false) K ->
  Forall (fun c => c <> ch_nul /\ c <> ch_quote) V ->
  parseCommandLine (Some (k0 :: K ++ [ch_equals; ch_quote] ++ V ++ [ch_quote]))
    paramVector
  = [k0 :: K ++ [ch_equals; ch_quote] ++ V ++ [ch_quote]]
  /\ getParamValFromString (k0 :: K ++ [ch_equals])
       (parseCommandLine
          (Some (k0 :: K ++ [ch_equals; ch_quote] ++ V ++ [ch_quote])) paramVector)
     = Ret (true, ch_quote :: V ++ [ch_quote], []).
Proof.
  intros Hk0 Hkw HK HV. rewrite parse_equals_quoted by done. split; [done|].
  assert (nul_free (k0 :: K ++ [ch_equals])) as Hkey.
  { constructor; [by destruct Hk0|]. apply Forall_app. split.
    - eapply Forall_impl; [exact HK|]. by intros c [[? _] _].
    - by repeat constructor. }
  assert (nul_free (ch_quote :: V ++ [ch_quote])) as Hval.
  { constructor; [done|]. apply Forall_app. split.
    - eapply Forall_impl; [exact HV|]. by intros c [? _].
    - by repeat constructor. }
  replace (k0 :: K ++ [ch_equals; ch_quote] ++ V ++ [ch_quote])
    with ((k0 :: K ++ [ch_equals]) ++ ch_quote :: V ++ [ch_quote])
    by (cbn [app]; by rewrite <- app_assoc).
  rewrite getParamValFromString_split.
  rewrite (earliest_match_split_first _ _ []
             ((k0 :: K ++ [ch_equals]) ++ ch_quote :: V ++ [ch_quote]) []).
  - unfold lstrlen. rewrite c_str_app, !c_str_id by done.
    by rewrite drop_app_length.
  - repeat split; [constructor|]. by apply hasKeyPrefix_app.
Qed.

Lemma equals_quoted_value_is_one_token_witness :
  parseCommandLine
    (Some (ch_dash :: TEXT "settingsDir" ++ [ch_equals; ch_quote]
           ++ TEXT "C:\my settings\" ++ [ch_quote])) []
  = [ch_dash :: TEXT "settingsDir" ++ [ch_equals; ch_quote]
     ++ TEXT "C:\my settings\" ++ [ch_quote]]
  /\ getParamValFromString (ch_dash :: TEXT "settingsDir" ++ [ch_equals])
       (parseCommandLine
          (Some (ch_dash :: TEXT "settingsDir" ++ [ch_equals; ch_quote]
                 ++ TEXT "C:\my settings\" ++ [ch_quote])) [])
     = Ret (true, ch_quote :: TEXT "C:\my settings\" ++ [ch_quote], []).
Proof.
  apply (equals_quoted_value_is_one_token ch_dash (TEXT "settingsDir")
           (TEXT "C:\my settings\") []).
  - split; discriminate.
  - reflexivity.
  - repeat constructor; discriminate.
  - repeat constructor; discriminate.
Defined.

Lemma hasKeyPrefix_starts_with str tok :
  hasKeyPrefix str tok = starts_with (c_str str) (c_str tok).
Proof.
  unfold hasKeyPrefix.
  destruct (starts_with (c_str str) (c_str tok)) eqn:E.
  - apply bool_decide_eq_true. by apply wstring_find_0.
  - apply bool_decide_eq_false. rewrite wstring_find_0. congruence.
Qed.

(** From the command line to the quote: a command line that is the key
    [-qt=] and a phrase between quotes gives the phrase, without its quotes and
    with its white space, as a quote of [type] 1, and the vector is left
    empty. *)
Theorem quote_phrase_from_command_line
    (relativeFilePathToFullFilePath : list TCHAR -> wstring)
    (V : list TCHAR) (type : N) :
  Forall (fun c => c <> ch_nul /\ c <> ch_quote) V ->
  fits_size_t (ch_quote :: V ++ [ch_quote]) ->
  getEasterEggNameFromParam relativeFilePathToFullFilePath
    (parseCommandLine (Some (TEXT "-qt=" ++ [ch_quote] ++ V ++ [ch_quote])) [])
    type
  = Ret (V, 1%N, []).
Proof.
  intros HV Hfit.
  assert (nul_free V) as HV0.
  { eapply Forall_impl; [exact HV|]. by intros c [? _]. }
  change (TEXT "-qt=" ++ [ch_quote] ++ V ++ [ch_quote])
    with (ch_dash :: TEXT "qt" ++ [ch_equals; ch_quote] ++ V ++ [ch_quote]).
  rewrite parse_equals_quoted;
    [|split; discriminate|reflexivity|repeat constructor; discriminate|done].
  set (tok := ch_dash :: TEXT "qt" ++ [ch_equals; ch_quote] ++ V ++ [ch_quote]).
  assert (c_str tok = tok) as Htok.
  { apply c_str_id. unfold tok. repeat (constructor; [discriminate|]).
    apply Forall_app. split; [done|]. by repeat constructor. }
  assert (hasKeyPrefix (TEXT "-qn=") tok = false) as Hn
    by (rewrite hasKeyPrefix_starts_with, Htok; reflexivity).
  assert (hasKeyPrefix (TEXT "-qt=") tok = true) as Ht
    by (rewrite hasKeyPrefix_starts_with, Htok; reflexivity).
  unfold getEasterEggNameFromParam, findEasterEggName.
  rewrite getParamValFromString_first. unfold find_first, remove_first.
  cbn [split_first]. rewrite Hn. cbn [bind negb].
  rewrite getParamValFromString_first. unfold find_first, remove_first.
  cbn [split_first]. rewrite Ht. cbn [bind negb app]. rewrite Htok.
  change (drop (lstrlen (TEXT "-qt=")) tok) with (ch_quote :: V ++ [ch_quote]).
  by rewrite stripDelimitingQuotes_between.
Qed.

Lemma quote_phrase_from_command_line_witness :
  getEasterEggNameFromParam (fun p => p)
    (parseCommandLine
       (Some (TEXT "-qt=" ++ [ch_quote] ++ TEXT "to be or not" ++ [ch_quote])) [])
    0%N
  = Ret (TEXT "to be or not", 1%N, []).
Proof.
  apply (quote_phrase_from_command_line (fun p => p) (TEXT "to be or not") 0%N).
  - repeat constructor; discriminate.
  - reflexivity.
Defined.

(** ** The Notepad replacement command line *)





(** ** When the order of two look-ups matters *)




(** * Quotes in tokens *)

(** ** C strings and terminators *)

Lemma c_str_length_le l : length (c_str l) <= length l.
Proof.
  induction l as [|a l IH]; simpl; [done|].
  destruct (a =? 0)%N; simpl; lia.
Qed.

Lemma c_str_full l : length (c_str l) = length l -> c_str l = l.
Proof.
  induction l as [|a l IH]; simpl; [done|].
  destruct (a =? 0)%N; simpl; [done|]. intros E. f_equal. apply IH. lia.
Qed.

Lemma c_str_snoc_nul l : c_str (l ++ [ch_nul]) = c_str l.
Proof.
  induction l as [|a l IH]; simpl; [done|].
  destruct (a =? 0)%N; [done|]. by rewrite IH.
Qed.

Lemma c_str_snoc_open l c :
  length (c_str l) = length l -> c <> ch_nul -> c_str (l ++ [c]) = c_str l ++ [c].
Proof.
  intros E Hc. apply c_str_full in E as E'. rewrite E'.
  apply c_str_id. apply Forall_app. split.
  - rewrite <- E'. apply c_str_nul_free.
  - by repeat constructor.
Qed.

Lemma c_str_app_closed l k : length (c_str l) < length l -> c_str (l ++ k) = c_str l.
Proof.
  induction l as [|a l IH]; simpl; [lia|].
  destruct (a =? 0)%N; [done|]. simpl. intros E. f_equal. apply IH. lia.
Qed.

Lemma c_str_length_nul l j : l !! j = Some ch_nul -> length (c_str l) <= j.
Proof.
  revert j. induction l as [|a l IH]; intros j; [done|].
  destruct j as [|j]; simpl.
  - intros [= ->]. simpl. lia.
  - intros H. destruct (a =? 0)%N; simpl; [lia|]. apply IH in H. lia.
Qed.

(** ** The token a pointer shows, one iteration later *)

Lemma take_extend (buf : list TCHAR) p i c :
  p <= i -> i < length buf ->
  take (S i - p) (drop p (<[i := c]> buf)) = take (i - p) (drop p buf) ++ [c].
Proof.
  intros Hp Hi. replace (S i - p) with (S (i - p)) by lia.
  rewrite drop_insert_ge by done.
  rewrite (take_S_r _ _ c).
  - by rewrite take_insert_ge.
  - apply list_lookup_insert_eq. rewrite length_drop. lia.
Qed.

Lemma take_drop_length (buf : list TCHAR) p i :
  p <= i -> i <= length buf -> length (take (i - p) (drop p buf)) = i - p.
Proof. intros. rewrite length_take, length_drop. lia. Qed.

Lemma token_so_far_length buf p i : length (token_so_far buf p i) <= i - p.
Proof.
  unfold token_so_far. etrans; [apply c_str_length_le|].
  rewrite length_take. lia.
Qed.

Lemma token_so_far_step buf p i c :
  p <= i -> i < length buf ->
  token_so_far (<[i := c]> buf) p (S i)
  = if bool_decide (length (token_so_far buf p i) = i - p /\ c <> ch_nul)
    then token_so_far buf p i ++ [c] else token_so_far buf p i.
Proof.
  intros Hp Hi. unfold token_so_far. rewrite take_extend by done.
  pose proof (take_drop_length buf p i Hp ltac:(lia)) as Hlen.
  case_bool_decide as Hd.
  - destruct Hd as [Ho Hc]. apply c_str_snoc_open; [|done]. by rewrite Hlen.
  - destruct (decide (c = ch_nul)) as [->|Hc]; [apply c_str_snoc_nul|].
    apply c_str_app_closed. rewrite Hlen.
    pose proof (c_str_length_le (take (i - p) (drop p buf))) as Hle.
    rewrite Hlen in Hle.
    destruct (decide (length (c_str (take (i - p) (drop p buf))) = i - p));
      [|lia].
    destruct Hd. done.
Qed.

Lemma token_closed_step buf p i c :
  p <= i -> i < length buf ->
  length (token_so_far buf p i) < i - p \/ c = ch_nul ->
  length (token_so_far (<[i := c]> buf) p (S i)) < S i - p.
Proof.
  intros Hp Hi H. rewrite token_so_far_step by done.
  pose proof (token_so_far_length buf p i).
  case_bool_decide as Hd; [|lia].
  destruct Hd as [Ho Hc]. destruct H as [H|H]; [lia|done].
Qed.

Lemma token_closed_by_nul buf p i j :
  p <= j -> j < i -> buf !! j = Some ch_nul ->
  length (token_so_far buf p i) < i - p.
Proof.
  intros Hp Hj Hb. unfold token_so_far.
  assert (take (i - p) (drop p buf) !! (j - p) = Some ch_nul) as H.
  { rewrite lookup_take_lt by lia. rewrite lookup_drop.
    by replace (p + (j - p)) with j by lia. }
  apply c_str_length_nul in H. lia.
Qed.

Lemma quote_state_snoc tok c :
  quote_state (tok ++ [c]) = quote_step (quote_state tok) c.
Proof. unfold quote_state. by rewrite fold_left_app. Qed.

Lemma token_quotes_ok_step buf (inS inS' : bool) i p c :
  p <= i -> i < length buf ->
  token_quotes_ok buf inS i p ->
  (c = ch_nul
   \/ (c = ch_quote /\ inS = true /\ inS' = false)
   \/ (c = ch_quote /\ inS = false /\ inS' = true
       /\ p < i /\ buf !! (i - 1) = Some ch_equals)
   \/ (c <> ch_quote /\ inS' = inS)) ->
  token_quotes_ok (<[i := c]> buf) inS' (S i) p.
Proof.
  intros Hp Hi (pe & ins & Hst & Hopen) Hc. unfold token_quotes_ok.
  rewrite token_so_far_step by done.
  assert (<[i := c]> buf !! (S i - 1) = Some c) as Hcell.
  { replace (S i - 1) with i by lia. by apply list_lookup_insert_eq. }
  rewrite Hcell.
  pose proof (token_so_far_length buf p i) as Hle.
  case_bool_decide as Hd.
  - destruct Hd as [Ho Hnul]. destruct (Hopen Ho) as [-> Hpe].
    rewrite quote_state_snoc, Hst, length_app. cbn [length quote_step].
    destruct Hc as [->|[(-> & -> & ->)|[(-> & -> & -> & Hlt & He)|[Hq ->]]]];
      [done|..].
    + exists false, false. split; [done|]. intros _. split; [done|].
      split; [done|]. by intros [_ [=]].
    + assert (pe = true) as -> by (by apply Hpe). cbn [N.eqb Pos.eqb].
      exists false, true. split; [done|]. intros _. split; [done|].
      split; [done|]. by intros [_ [=]].
    + apply N.eqb_neq in Hq as Hq'. rewrite Hq'.
      exists (c =? ch_equals)%N, inS. split; [done|]. intros _. split; [done|].
      split.
      * intros ->%N.eqb_eq. split; [lia|done].
      * intros [_ [= ->]]. done.
  - exists pe, ins. split; [done|]. intros E. lia.
Qed.

Lemma token_quotes_ok_new buf i :
  token_quotes_ok buf false i i.
Proof.
  exists false, false. unfold token_so_far. rewrite Nat.sub_diag. cbn.
  split; [done|]. intros _. split; [done|]. split; [done|]. intros [? _]. lia.
Qed.

(** ** The scan keeps the quotes of every token in place *)

(** What an iteration does to the cell it reads, to the pointers and to the
    flag of the equals-quoted string. *)
Lemma parseStep_summary i s c :
  cmdLine s !! i = Some c ->
  exists c' new,
    cmdLine (parseStep i s) = <[i := c']> (cmdLine s)
    /\ args (parseStep i s) = args s ++ new
    /\ (c' = ch_nul
        \/ (c' = ch_quote /\ isStringInArg s = true
            /\ isStringInArg (parseStep i s) = false)
        \/ (c' = ch_quote /\ isStringInArg s = false
            /\ isStringInArg (parseStep i s) = true
            /\ isBetweenFileNameQuotes s = false
            /\ cmdLine s !! (i - 1) = Some ch_equals)
        \/ (c' <> ch_quote /\ isStringInArg (parseStep i s) = isStringInArg s))
    /\ (new = []
        \/ (new = [S i] /\ c' = ch_nul /\ isStringInArg (parseStep i s) = false)
        \/ (new = [i] /\ c' = c /\ c <> ch_quote
            /\ isStringInArg s = false
            /\ isStringInArg (parseStep i s) = false
            /\ isBetweenFileNameQuotes s = false /\ isInWhiteSpace s = true))
    /\ (isInWhiteSpace (parseStep i s) = true ->
        isBetweenFileNameQuotes (parseStep i s) = false ->
        isStringInArg (parseStep i s) = false -> c' = ch_nul).
Proof.
  intros Hc. unfold parseStep. rewrite (peek_lookup _ _ _ Hc).
  assert (forall x, x = c -> cmdLine s = <[i := x]> (cmdLine s)) as Hid.
  { intros x ->. symmetry. by apply list_insert_id. }
  destruct (N.eqb_spec c ch_quote) as [->|Hq].
  - unfold onQuote.
    destruct (isStringInArg s) eqn:ES; cbn [negb andb].
    { exists ch_quote, []. cbn [cmdLine args isStringInArg isInWhiteSpace].
      rewrite app_nil_r. split; [by apply Hid|]. split; [done|].
      split; [by right; left|]. split; [by left|done]. }
    destruct (isBetweenFileNameQuotes s) eqn:EB; cbn [negb andb].
    { exists ch_nul, []. cbn [cmdLine args isStringInArg isInWhiteSpace].
      rewrite app_nil_r. split; [done|]. split; [done|].
      split; [by left|]. split; [by left|done]. }
    destruct ((0 <? i) && (peek (cmdLine s) (i - 1) =? ch_equals)%N) eqn:EP.
    + apply andb_prop in EP as [_ EP%N.eqb_eq].
      apply peek_nonzero in EP; [|done].
      exists ch_quote, []. cbn [cmdLine args isStringInArg isInWhiteSpace].
      rewrite app_nil_r. split; [by apply Hid|]. split; [done|].
      split; [by right; right; left|]. split; [by left|done].
    + exists ch_nul, [S i]. cbn [cmdLine args isStringInArg isInWhiteSpace].
      rewrite Nat.add_1_r. split; [done|]. split; [done|].
      split; [by left|]. split; [by right; left|done].
  - destruct ((c =? ch_tab)%N || (c =? ch_space)%N) eqn:EW.
    + unfold onWhiteSpace.
      destruct (isBetweenFileNameQuotes s) eqn:EB; cbn [negb andb].
      { exists c, []. cbn [cmdLine args isStringInArg isInWhiteSpace
                             isBetweenFileNameQuotes].
        rewrite app_nil_r. split; [by apply Hid|]. split; [done|].
        split; [by right; right; right|]. split; [by left|]. by intros _ [=]. }
      destruct (isStringInArg s) eqn:ES; cbn [negb andb].
      { exists c, []. cbn [cmdLine args isStringInArg isInWhiteSpace
                             isBetweenFileNameQuotes].
        rewrite app_nil_r. split; [by apply Hid|]. split; [done|].
        split; [by right; right; right|]. split; [by left|].
        by intros _ _ [=]. }
      exists ch_nul, []. cbn [cmdLine args isStringInArg isInWhiteSpace].
      rewrite app_nil_r. split; [done|]. split; [done|].
      split; [by left|]. split; [by left|done].
    + unfold onOther.
      destruct (negb (isBetweenFileNameQuotes s) && negb (isStringInArg s)
                && isInWhiteSpace s) eqn:EC.
      * apply andb_prop in EC as [[EB%negb_true_iff ES%negb_true_iff]%andb_prop EI].
        exists c, [i]. cbn [cmdLine args isStringInArg isInWhiteSpace].
        split; [by apply Hid|]. split; [done|].
        split; [by right; right; right|]. split; [by right; right|done].
      * exists c, []. rewrite app_nil_r.
        split; [by apply Hid|]. split; [done|].
        split; [by right; right; right|]. split; [by left|].
        intros EI EB ES. by rewrite EI, EB, ES in EC.
Qed.

Lemma token_quotes_inv_step n i s :
  i < n -> token_quotes_inv n i s -> token_quotes_inv n (S i) (parseStep i s).
Proof.
  intros Hi (Hscan & Hlen & Hws & Hfront & Htok).
  pose proof Hscan as (_ & Hle & Hlt & _).
  destruct (lookup_lt_is_Some_2 (cmdLine s) i) as [c Hc]; [lia|].
  destruct (parseStep_summary i s c Hc)
    as (c' & new & Hbuf & Hargs & Hcase & Hnew & Hzap).
  assert (i < length (cmdLine s)) as Hi' by lia.
  assert (forall q, q ∈ args s ->
            token_quotes_ok (cmdLine (parseStep i s))
              (isStringInArg (parseStep i s)) (S i) q) as Hold.
  { intros q Hq. rewrite Hbuf.
    rewrite Forall_forall in Hle, Htok.
    apply (token_quotes_ok_step _ (isStringInArg s)); [by apply Hle|done|by apply Htok|].
    destruct Hcase as [->|[(-> & E1 & E2)|[(-> & E1 & E2 & EB & Hp)|[Hq' E]]]].
    - by left.
    - right; left. done.
    - right; right; left. repeat split; try done.
      specialize (Hlt EB). rewrite Forall_forall in Hlt. by apply Hlt.
    - right; right; right. done. }
  assert (forall q, q ∈ args s ->
            length (token_so_far (cmdLine s) q i) < i - q \/ c' = ch_nul ->
            length (token_so_far (cmdLine (parseStep i s)) q (S i)) < S i - q)
    as Hclosed.
  { intros q Hq H. rewrite Hbuf. rewrite Forall_forall in Hle.
    apply token_closed_step; [by apply Hle|done|done]. }
  split; [by apply scan_inv_step|].
  split; [by rewrite parseStep_length|].
  split; [|split].
  - intros EW EB ES. right. replace (S i - 1) with i by lia.
    rewrite Hbuf, (Hzap EW EB ES). by apply list_lookup_insert_eq.
  - intros front p Hfp. rewrite Hargs in Hfp. apply Forall_forall. intros q Hq.
    destruct Hnew as [->|[(-> & -> & _)|(-> & -> & Hcq & ES & _ & EB & EW)]].
    + rewrite app_nil_r in Hfp. apply Hclosed.
      * rewrite Hfp. apply elem_of_app. by left.
      * left. specialize (Hfront front p Hfp). rewrite Forall_forall in Hfront.
        by apply Hfront.
    + apply app_inj_tail in Hfp as [<- _]. apply Hclosed; [done|by right].
    + apply app_inj_tail in Hfp as [<- _]. apply Hclosed; [done|]. left.
      specialize (Hlt EB). rewrite Forall_forall in Hlt. apply Hlt in Hq.
      destruct (Hws EW EB ES) as [->|Hnul]; [lia|].
      apply (token_closed_by_nul _ _ _ (i - 1)); [lia|lia|done].
  - rewrite Hargs. apply Forall_app. split.
    + apply Forall_forall. exact Hold.
    + destruct Hnew as [->|[(-> & -> & ES')|(-> & -> & Hcq & ES & ES' & _)]].
      * constructor.
      * constructor; [|constructor]. rewrite ES'. apply token_quotes_ok_new.
      * constructor; [|constructor]. rewrite Hbuf, ES'.
        apply (token_quotes_ok_step _ false); [done|done| |].
        -- apply token_quotes_ok_new.
        -- right; right; right. done.
Qed.

Lemma token_quotes_inv_final raw :
  exists k, k <= length (c_str raw)
    /\ token_quotes_inv (length (c_str raw)) k (parseFinal raw)
    /\ (shouldBeTerminated (parseFinal raw) = false -> k = length (c_str raw)).
Proof.
  unfold parseFinal. rewrite lstrlen_lstrcpy.
  destruct (parseLoop_invariant (length (c_str raw))
              (token_quotes_inv (length (c_str raw))))
    with (n := length (c_str raw)) (i := 0) (s := initParseState (lstrcpy raw))
    as (k & Hk & Hinv & Hend).
  - intros i s Hi _. by apply token_quotes_inv_step.
  - lia.
  - split; [repeat split; constructor|].
    split; [unfold lstrcpy; cbn [cmdLine initParseState];
            rewrite length_app; simpl; lia|].
    split; [by left|]. split; [|constructor].
    intros front p H. cbn [args initParseState] in H.
    by apply app_cons_not_nil in H.
  - exists k. done.
Qed.

(** ** From the invariant to the tokens *)

Lemma quote_step_None tok : fold_left quote_step tok None = None.
Proof. by induction tok. Qed.

Lemma equals_string_quotes_state tok pe ins st :
  fold_left quote_step tok (Some (pe, ins)) = Some st ->
  equals_string_quotes pe ins tok = true.
Proof.
  revert pe ins. induction tok as [|c tok IH]; intros pe ins; [done|].
  cbn [fold_left quote_step equals_string_quotes].
  destruct (c =? ch_quote)%N; [|apply IH].
  destruct ins; [apply IH|].
  destruct pe; [apply IH|]. by rewrite quote_step_None.
Qed.

Lemma equals_string_quotes_after_equals tok pe prev :
  equals_string_quotes pe false tok = true ->
  (pe = true -> prev = ch_equals) ->
  no_quote_after_equals (prev :: tok) ->
  ch_quote ∉ tok.
Proof.
  revert pe prev. induction tok as [|c tok IH]; intros pe prev Hok Hpe Hno.
  { apply not_elem_of_nil. }
  cbn [equals_string_quotes] in Hok.
  destruct (N.eqb_spec c ch_quote) as [->|Hc].
  - apply andb_prop in Hok as [-> _]. specialize (Hpe eq_refl) as ->.
    by destruct (Hno 0 eq_refl).
  - apply not_elem_of_cons. split; [done|].
    apply (IH (c =? ch_equals)%N c); [done|by intros ?%N.eqb_eq|].
    intros j. apply (Hno (S j)).
Qed.

Lemma str_at_token_so_far_end buf p n :
  p <= n -> length buf = S n -> buf !! n = Some ch_nul ->
  str_at buf p = token_so_far buf p n.
Proof.
  intros Hp Hlen Hn. unfold str_at, token_so_far.
  assert (drop p buf = take (n - p) (drop p buf) ++ [ch_nul]) as E.
  { rewrite <- (take_S_r _ _ ch_nul).
    - symmetry. apply take_ge. rewrite length_drop. lia.
    - rewrite lookup_drop. by replace (p + (n - p)) with n by lia. }
  rewrite E at 1. apply c_str_snoc_nul.
Qed.

Lemma str_at_token_so_far_closed buf p k :
  k <= length buf ->
  length (token_so_far buf p k) < k - p ->
  str_at buf p = token_so_far buf p k.
Proof.
  unfold str_at, token_so_far. intros Hk H.
  rewrite <- (take_drop (k - p) (drop p buf)) at 1.
  apply c_str_app_closed. rewrite length_take, length_drop. lia.
Qed.

(** C1, as the code has it, token by token: in every token, except a last
    token taken by verbatim capture, a quote character is either the quote
    that opens an equals-quoted string, directly after an equals sign, or the
    quote that closes it; so a token in which no quote stands directly after
    an equals sign holds no quote.  The quotes that open and close a quoted
    filename are replaced by terminators and are in no token. *)
Theorem filename_quotes_elided (raw : list TCHAR) (paramVector : ParamVector)
    (k : nat) (tok : wstring) :
  parseCommandLine (Some raw) paramVector !! k = Some tok ->
  shouldBeTerminated (parseFinal raw) = false
  \/ S k < length (parseCommandLine (Some raw) paramVector) ->
  equals_string_quotes false false tok = true
  /\ (no_quote_after_equals tok -> ch_quote ∉ tok).
Proof.
  intros Htok Hlast.
  assert (equals_string_quotes false false tok = true) as Hok.
  { destruct (token_quotes_inv_final raw)
      as (i & Hi & (Hscan & Hlen & _ & Hfront & Hall) & Hend).
    cbn [parseCommandLine] in Htok, Hlast. unfold argsToParams in Htok, Hlast.
    change (map (str_at (cmdLine (parseFinal raw))) (args (parseFinal raw)))
      with (str_at (cmdLine (parseFinal raw)) <$> args (parseFinal raw))
      in Htok, Hlast.
    rewrite list_lookup_fmap in Htok. rewrite length_fmap in Hlast.
    destruct (args (parseFinal raw) !! k) as [p|] eqn:Hp; [|done].
    injection Htok as <-.
    destruct Hscan as (_ & Hle & _).
    rewrite Forall_forall in Hle, Hall.
    apply list_elem_of_lookup_2 in Hp as Hin.
    destruct (Hall p Hin) as (pe & ins & Hst & _).
    assert (str_at (cmdLine (parseFinal raw)) p
            = token_so_far (cmdLine (parseFinal raw)) p i) as ->.
    { destruct Hlast as [Hlast|Hlast].
      - specialize (Hend Hlast) as ->.
        apply str_at_token_so_far_end; [by apply Hle|done|].
        destruct (parseFinal_cells raw (length (c_str raw))) as [E|E]; [|done].
        rewrite (lookup_ge_None_2 (c_str raw)) in E by lia.
        apply lookup_ge_None_1 in E. lia.
      - destruct (args (parseFinal raw)) as [|a l _] eqn:Ea using rev_ind.
        { simpl in Hlast. lia. }
        rewrite length_app in Hlast. simpl in Hlast.
        rewrite lookup_app_l in Hp by lia.
        apply list_elem_of_lookup_2 in Hp.
        specialize (Hfront l a eq_refl). rewrite Forall_forall in Hfront.
        apply str_at_token_so_far_closed; [lia|]. by apply Hfront. }
    by apply (equals_string_quotes_state _ _ _ (pe, ins)). }
  split; [done|]. intros Hno.
  apply (equals_string_quotes_after_equals tok false ch_nul); [done|done|].
  intros [|j]; [done|]. apply Hno.
Qed.

Lemma filename_quotes_elided_witness :
  equals_string_quotes false false (TEXT "c d") = true
  /\ (no_quote_after_equals (TEXT "c d") -> ch_quote ∉ (TEXT "c d")).
Proof.
  apply (filename_quotes_elided
           (TEXT "-x=" ++ [ch_quote] ++ TEXT "a b" ++ [ch_quote; ch_space; ch_quote]
              ++ TEXT "c d" ++ [ch_quote]) [] 1).
  - reflexivity.
  - left. reflexivity.
Defined.

(** C1 as stated fails: the quotes of an equals-quoted string are part of
    the token. *)
Lemma filename_quotes_elided_counterexample :
  parseCommandLine
    (Some (TEXT "-qt=" ++ [ch_quote] ++ TEXT "a b" ++ [ch_quote])) []
  = [TEXT "-qt=" ++ [ch_quote] ++ TEXT "a b" ++ [ch_quote]]
  /\ ch_quote ∈ (TEXT "-qt=" ++ [ch_quote] ++ TEXT "a b" ++ [ch_quote]).
Proof. split; [reflexivity|]. apply (bool_decide_unpack _). vm_compute. exact I. Qed.
